(** * WorkingRAGMetric: a shallow embedding of [working_rag_metric.py]

    The development follows the Python module function by function:
    the character tables and string primitives of the interpreter that
    the module relies on, the values it accepts, [_extract_text],
    [_normalize_text], [_check_key_info], the [SequenceMatcher] of the
    standard [difflib] module, and finally [__call__].

    Texts are lists of one-byte code points (U+0000 .. U+00FF); the
    interpreter's tables for white space, word characters, lower-casing
    and printability are reproduced for that range.

    Scores are Python floats that the module only produces by one
    division of two small integers, by the literals 0.0, 0.5, 0.7, 0.8
    and 1.0, and by [max] and comparisons.  They are modelled by the exact
    rationals.  Rounding to the nearest float is monotone, so it commutes
    with [max]: the float a call returns is the rounding of the rational
    computed here.  The one comparison of a quotient with a literal,
    [overlap_ratio >= 0.5], has a literal that is a float itself and
    comes out the same for every set of fewer than 2^53 words. *)

From Stdlib Require Import Ascii String DecimalString QArith Lia.
From stdpp Require Import gmap strings list fin_maps.

Local Open Scope bool_scope.

(** ** Characters and texts *)

Abbreviation text := (list ascii).

(** A string literal read as a text. *)
Definition txt (s : string) : text := list_ascii_of_string s.

Definition code (c : ascii) : N := N_of_ascii c.

Definition in_range (lo hi : N) (c : ascii) : bool :=
  (lo <=? code c)%N && (code c <=? hi)%N.

Definition is_code (n : N) (c : ascii) : bool := (code c =? n)%N.

(** [str.isspace], which is also the class [\s] of [re] on [str]
    patterns: TAB..CR, FS..US, SPACE, NEL and NBSP. *)
Definition isspace (c : ascii) : bool :=
  in_range 9 13 c || in_range 28 32 c || is_code 133 c || is_code 160 c.

(** The class [\w] of [re] on [str] patterns: alphanumerics and the
    underscore. *)
Definition isword (c : ascii) : bool :=
  in_range 48 57 c || in_range 65 90 c || is_code 95 c || in_range 97 122 c
  || is_code 170 c || in_range 178 179 c || is_code 181 c
  || in_range 185 186 c || in_range 188 190 c
  || in_range 192 214 c || in_range 216 246 c || in_range 248 255 c.

(** [str.lower] on one character. *)
Definition lower_char (c : ascii) : ascii :=
  if in_range 65 90 c || in_range 192 214 c || in_range 216 222 c
  then ascii_of_N (code c + 32) else c.

(** [str.isprintable] on one character. *)
Definition isprintable (c : ascii) : bool :=
  negb (in_range 0 31 c || in_range 127 160 c || is_code 173 c).

(** [s.lower()]: on the one-byte range every character has a lower-case
    form of one character, so that lengths are kept; beyond that range
    this fails (U+0130 has a lower-case form of two characters). *)
Definition lower (s : text) : text := map lower_char s.

(** [s.strip()] *)
Fixpoint lstrip (s : text) : text :=
  match s with
  | c :: r => if isspace c then lstrip r else s
  | [] => []
  end.

Definition rstrip (s : text) : text := rev (lstrip (rev s)).

Definition strip (s : text) : text := rstrip (lstrip s).

(** [s.split()]: the maximal runs of characters that are not white
    space.  [cur] holds the run being read, last character first. *)
Definition flush (cur : text) : list text :=
  match cur with [] => [] | _ => [rev cur] end.

Fixpoint split_from (cur : text) (s : text) : list text :=
  match s with
  | [] => flush cur
  | c :: r =>
      if isspace c then flush cur ++ split_from [] r
      else split_from (c :: cur) r
  end.

Definition split (s : text) : list text := split_from [] s.

(** [p in s] on strings. *)
Fixpoint startswith (s p : text) {struct p} : bool :=
  match p, s with
  | [], _ => true
  | x :: p', c :: s' => Ascii.eqb x c && startswith s' p'
  | _ :: _, [] => false
  end.

Fixpoint str_in (p s : text) : bool :=
  startswith s p || match s with [] => false | _ :: r => str_in p r end.

(** [sep.join(items)] *)
Fixpoint join (sep : text) (items : list text) : text :=
  match items with
  | [] => []
  | [x] => x
  | x :: rest => x ++ sep ++ join sep rest
  end.

(** ** _normalize_text *)

Module re.

(** [re.sub(r'\s+', ' ', s)]: every maximal run of white space becomes
    one space.  [in_run] tells that the previous character belonged to
    the run being replaced. *)
Fixpoint sub_spaces (in_run : bool) (s : text) : text :=
  match s with
  | [] => []
  | c :: r =>
      if isspace c
      then if in_run then sub_spaces true r
           else " "%char :: sub_spaces true r
      else c :: sub_spaces false r
  end.

(** The class of the second pattern: full stop, comma, exclamation and
    question mark, semicolon, colon, double and single quote. *)
Definition ispunct (c : ascii) : bool :=
  existsb (Ascii.eqb c) (txt ".,!?;:'" ++ [ascii_of_N 34]).

(** [re.sub] of that class by the empty string. *)
Definition sub_punct (s : text) : text :=
  List.filter (fun c => negb (ispunct c)) s.

(** [\b]: the characters on the two sides differ in being word
    characters; the ends of the text count as non-word. *)
Definition wordopt (o : option ascii) : bool :=
  match o with Some c => isword c | None => false end.

Definition boundary (prev : option ascii) (s : text) : bool :=
  xorb (wordopt prev) (wordopt (head s)).

(** A literal under [re.IGNORECASE], matched at the head of [s]: the
    last character consumed and the rest of the text. *)
Fixpoint literal (w : text) (prev : option ascii) (s : text)
  : option (option ascii * text) :=
  match w with
  | [] => Some (prev, s)
  | x :: w' =>
      match s with
      | c :: s' =>
          if Ascii.eqb (lower_char c) x then literal w' (Some c) s'
          else None
      | [] => None
      end
  end.

Definition articles : list text := [txt "the"; txt "a"; txt "an"].

(** [\b(the|a|an)\b] tried at the head of [s], the alternatives in
    order: the length of the match. *)
Fixpoint alternatives (ws : list text) (prev : option ascii) (s : text)
  : option nat :=
  match ws with
  | [] => None
  | w :: ws' =>
      match literal w prev s with
      | Some (lastc, rest) =>
          if boundary lastc rest then Some (length w)
          else alternatives ws' prev s
      | None => alternatives ws' prev s
      end
  end.

Definition match_article (prev : option ascii) (s : text) : option nat :=
  if boundary prev s then alternatives articles prev s else None.

(** [re.sub(r'\b(the|a|an)\b', '', s, flags=re.IGNORECASE)]: the scan
    goes left to right; where the pattern matches, the match is dropped
    and the scan resumes after it.  [skip] counts the characters of the
    current match still to drop, [prev] is the character before the
    head of [s]. *)
Fixpoint sub_articles (skip : nat) (prev : option ascii) (s : text) : text :=
  match s with
  | [] => []
  | c :: r =>
      match skip with
      | S k => sub_articles k (Some c) r
      | 0 =>
          match match_article prev s with
          | Some (S k) => sub_articles k (Some c) r
          | _ => c :: sub_articles 0 (Some c) r
          end
      end
  end.

End re.

Definition _normalize_text (text0 : text) : text :=
  let text1 := re.sub_spaces false (strip text0) in
  let text2 := re.sub_punct text1 in
  let text3 := re.sub_articles 0 None text2 in
  strip text3.

(** ** Exceptions

    An exception, by what [except Exception as e] and [str(e)] make of it:
    an instance of [Exception] (or of a subclass) whose text is [msg]; an
    instance of [Exception] whose [__str__] raises in its turn; an
    exception outside [Exception], such as [KeyboardInterrupt],
    [SystemExit] or [GeneratorExit]. *)

Inductive exn : Type :=
| Exception (msg : text)
| ExceptionNoStr (raised : exn)
| BaseException (msg : text).

(** [isinstance(e, Exception)] *)
Definition is_exception (e : exn) : bool :=
  match e with BaseException _ => false | _ => true end.

(** [str(e)] *)
Definition str_of_exn (e : exn) : exn + text :=
  match e with
  | Exception msg | BaseException msg => inr msg
  | ExceptionNoStr raised => inl raised
  end.

(** ** Input values

    What the metric can be handed: a string, a [dict] with string keys (in
    insertion order), a [list], an integer, [None], any other object, of
    which only the outcomes of [str()] and [repr()] matter (a text, that
    is a string of the built-in class, or an exception raised), and an
    instance of a subclass: [VSub base s r] has
    the class of [base] among its classes and the content of [base], it
    inherits every method but [__str__] and [__repr__], whose outcomes are
    [s] and [r].  A [bool] is such an instance of [int].

    The limits of the interpreter that depend on where a call is made from
    (the recursion depth, the memory) are taken not to be reached; the
    limit on the digits of an integer converted to text is the default
    one. *)

#[warnings="-register-all"]
Inductive PyVal : Type :=
| VStr (s : text)
| VInt (z : Z)
| VNone
| VList (items : list PyVal)
| VDict (entries : list (text * PyVal))
| VObj (str_ repr_ : exn + text)
| VSub (base : PyVal) (str_ repr_ : exn + text).

(** The value of a built-in class that [v] is, or extends: what
    [isinstance] and the inherited methods see. *)
Fixpoint builtin (v : PyVal) : PyVal :=
  match v with
  | VSub base _ _ => builtin base
  | _ => v
  end.

Definition hex_digit (n : N) : ascii :=
  if (n <? 10)%N then ascii_of_N (48 + n) else ascii_of_N (87 + n).

(** [repr] of a string: single quotes unless the text has a single and no
    double quote; the quote and the backslash are escaped, as are the
    characters that are not printable. *)
Definition dquote : ascii := ascii_of_N 34.
Definition squote : ascii := ascii_of_N 39.
Definition backslash : ascii := ascii_of_N 92.

Definition repr_char (quote c : ascii) : text :=
  if Ascii.eqb c quote || Ascii.eqb c backslash then [backslash; c]
  else if is_code 9 c then [backslash; "t"%char]
  else if is_code 10 c then [backslash; "n"%char]
  else if is_code 13 c then [backslash; "r"%char]
  else if isprintable c then [c]
  else [backslash; "x"%char; hex_digit (code c / 16); hex_digit (code c mod 16)].

Definition repr_str (s : text) : text :=
  let quote :=
    if existsb (Ascii.eqb squote) s && negb (existsb (Ascii.eqb dquote) s)
    then dquote else squote in
  quote :: concat (map (repr_char quote) s) ++ [quote].

(** [sys.get_int_max_str_digits()], by default. *)
Definition int_max_str_digits : nat := 4300.

(** [repr] of an integer: its decimal digits, or a [ValueError] when
    there are more of them than the limit. *)
Definition repr_int (z : Z) : exn + text :=
  let s := list_ascii_of_string (NilZero.string_of_int (Z.to_int z)) in
  let digits := if (z <? 0)%Z then length s - 1 else length s in
  if int_max_str_digits <? digits
  then inl (Exception
              (txt "Exceeds the limit (4300 digits) for integer string conversion; use sys.set_int_max_str_digits() to increase the limit"))
  else inr s.

(** The exception monad of the module: [inl] is a raised exception. *)
Definition bind {A B} (m : exn + A) (k : A -> exn + B) : exn + B :=
  match m with inl e => inl e | inr a => k a end.

Notation "'let*' x ':=' m 'in' k" := (bind m (fun x => k))
  (at level 10, x name, m at level 100, k at level 200).

(** The results of converting the items in order: the first exception
    raised, or all the texts. *)
Fixpoint sequence (l : list (exn + text)) : exn + list text :=
  match l with
  | [] => inr []
  | m :: l' => let* r := m in let* rs := sequence l' in inr (r :: rs)
  end.

Fixpoint py_repr (v : PyVal) : exn + text :=
  match v with
  | VStr s => inr (repr_str s)
  | VInt z => repr_int z
  | VNone => inr (txt "None")
  | VList items =>
      let* rs := sequence (map py_repr items) in
      inr (txt "[" ++ join (txt ", ") rs ++ txt "]")
  | VDict entries =>
      let* rs :=
        sequence
          (map (λ kv, let* r := py_repr kv.2 in
                      inr (repr_str kv.1 ++ txt ": " ++ r)) entries) in
      inr (txt "{" ++ join (txt ", ") rs ++ txt "}")
  | VObj _ r | VSub _ _ r => r
  end.

(** [str(v)] *)
Definition py_str (v : PyVal) : exn + text :=
  match v with
  | VStr s => inr s
  | VObj s _ | VSub _ s _ => s
  | _ => py_repr v
  end.

(** [k in d] and [d[k]] together. *)
Fixpoint dict_get (d : list (text * PyVal)) (k : text) : option PyVal :=
  match d with
  | [] => None
  | (k', v) :: d' => if decide (k' = k) then Some v else dict_get d' k
  end.

(** ** The metric object and _extract_text *)

Record WorkingRAGMetric : Type := { output_field : text }.

Definition default_metric : WorkingRAGMetric :=
  {| output_field := txt "answer" |}.

(** The loop over the candidate field names; [Some] is a [return] from
    inside the loop, [None] is the loop running to its end. *)
Fixpoint try_fields (d : list (text * PyVal)) (fields : list text)
  : option (exn + text) :=
  match fields with
  | [] => None
  | field :: fields' =>
      match dict_get d field with
      | Some value =>
          match builtin value with
          | VStr s => Some (inr (strip s))
          | VDict _ | VList _ => Some (py_str value)
          | _ => try_fields d fields'
          end
      | None => try_fields d fields'
      end
  end.

Definition candidate_fields (self : WorkingRAGMetric) : list text :=
  [output_field self; txt "answer"; txt "response"; txt "text"].

(** What follows the loop: the nested path, then the conversion of the
    whole value, of which [whole] is the outcome of [str()]. *)
Definition after_fields_of (whole : exn + text) (d : list (text * PyVal))
  : exn + text :=
  let fallback := let* s := whole in inr (strip s) in
  match dict_get d (txt "outputs") with
  | Some outputs =>
      match builtin outputs with
      | VDict entries =>
          match dict_get entries (txt "answer") with
          | Some answer => let* s := py_str answer in inr (strip s)
          | None => fallback
          end
      | _ => fallback
      end
  | None => fallback
  end.

(** The branch [isinstance(data, dict)], the loop over [fields]. *)
Definition extract_from_of (whole : exn + text) (fields : list text)
    (d : list (text * PyVal)) : exn + text :=
  match try_fields d fields with
  | Some r => r
  | None => after_fields_of whole d
  end.

(** The same on a [dict] of the built-in class. *)
Definition after_fields (d : list (text * PyVal)) : exn + text :=
  after_fields_of (py_str (VDict d)) d.


Definition _extract_text (self : WorkingRAGMetric) (data : PyVal)
  : exn + text :=
  match builtin data with
  | VStr s => inr (strip s)
  | VDict d => extract_from_of (py_str data) (candidate_fields self) d
  | _ => let* s := py_str data in inr (strip s)
  end.

(** [s[i] == u[j]], both positions being in range. *)
Definition same_at (s u : text) (i j : nat) : bool :=
  match s !! i, u !! j with
  | Some x, Some y => Ascii.eqb x y
  | _, _ => false
  end.

(** ** difflib.SequenceMatcher

    The standard class as the module uses it: [SequenceMatcher(None, a, b)],
    that is no junk predicate and the automatic junk heuristic left at its
    default.  Positions are natural numbers; a matching block is the triple
    of its start in [a], its start in [b] and its size. *)

Module difflib.

Definition Match : Type := nat * nat * nat.

Definition size (m : Match) : nat := m.2.

Record SequenceMatcher : Type := {
  a : text;
  b : text;
  b2j : gmap ascii (list nat)
}.

(** [b2j.setdefault(elt, []).append(i)] *)
Definition setdefault_append (m : gmap ascii (list nat)) (i : nat)
    (elt : ascii) : gmap ascii (list nat) :=
  <[elt := default [] (m !! elt) ++ [i]]> m.

(** [for i, elt in enumerate(b)], from position [i] on. *)
Fixpoint index_from (i : nat) (s : text) (m : gmap ascii (list nat))
  : gmap ascii (list nat) :=
  match s with
  | [] => m
  | elt :: r => index_from (S i) r (setdefault_append m i elt)
  end.

(** An element is popular when it occurs more than [n // 100 + 1] times
    in a text of [n >= 200] elements. *)
Definition popular (n : nat) (idxs : list nat) : bool :=
  (200 <=? n) && (n / 100 + 1 <? length idxs).

(** [__chain_b]: the positions of every element of [b]; there is no
    junk to purge; the popular elements are purged when [autojunk]. *)
Definition chain_b (autojunk : bool) (s : text) : gmap ascii (list nat) :=
  let m := index_from 0 s ∅ in
  if autojunk
  then filter (λ kv, popular (length s) kv.2 = false) m
  else m.

Definition init (autojunk : bool) (a0 b0 : text) : SequenceMatcher :=
  {| a := a0; b := b0; b2j := chain_b autojunk b0 |}.

(** [isjunk] is [None]: the junk set is empty. *)
Definition isbjunk (c : ascii) : bool := false.

Section find_longest_match.
Variable self : SequenceMatcher.
Variables alo ahi blo bhi : nat.

(** [a[i] == b[j]] *)
Definition same (i j : nat) : bool := same_at (a self) (b self) i j.

Definition junk_at (j : nat) : bool :=
  match b self !! j with Some y => isbjunk y | None => false end.

(** [j2len.get(j-1, 0)]; no key is negative. *)
Definition j2len_get (j2len : gmap nat nat) (j : nat) : nat :=
  match j with
  | 0 => 0
  | S j' => default 0 (j2len !! j')
  end.

(** The inner loop [for j in b2j.get(a[i], nothing)].  In
    [i + 1 - k] the subtraction is exact: a run ending at [i] has at
    most [i + 1] elements. *)
Fixpoint scan_row (i : nat) (j2len : gmap nat nat) (js : list nat)
    (newj2len : gmap nat nat) (best : Match) : gmap nat nat * Match :=
  match js with
  | [] => (newj2len, best)
  | j :: js' =>
      if j <? blo then scan_row i j2len js' newj2len best
      else if bhi <=? j then (newj2len, best)
      else
        let k := j2len_get j2len j + 1 in
        scan_row i j2len js' (<[j := k]> newj2len)
          (if size best <? k then (i + 1 - k, j + 1 - k, k) else best)
  end.

(** The outer loop [for i in range(alo, ahi)], over the positions
    that remain. *)
Fixpoint scan_rows (rows : list nat) (j2len : gmap nat nat)
    (best : Match) : Match :=
  match rows with
  | [] => best
  | i :: rows' =>
      let js :=
        match a self !! i with
        | Some x => default [] (b2j self !! x)
        | None => []
        end in
      let '(newj2len, best') := scan_row i j2len js ∅ best in
      scan_rows rows' newj2len best'
  end.

(** The four [while] loops that extend the block, each bounded by
    the room left on its side. *)
Fixpoint extend_left (junk : bool) (room : nat) (best : Match) : Match :=
  let '(besti, bestj, bestsize) := best in
  match room with
  | 0 => best
  | S room' =>
      if (alo <? besti) && (blo <? bestj)
         && Bool.eqb (junk_at (bestj - 1)) junk
         && same (besti - 1) (bestj - 1)
      then extend_left junk room' (besti - 1, bestj - 1, bestsize + 1)
      else best
  end.

Fixpoint extend_right (junk : bool) (room : nat) (best : Match) : Match :=
  let '(besti, bestj, bestsize) := best in
  match room with
  | 0 => best
  | S room' =>
      if (besti + bestsize <? ahi) && (bestj + bestsize <? bhi)
         && Bool.eqb (junk_at (bestj + bestsize)) junk
         && same (besti + bestsize) (bestj + bestsize)
      then extend_right junk room' (besti, bestj, bestsize + 1)
      else best
  end.

Definition find_longest_match : Match :=
  let best := scan_rows (seq alo (ahi - alo)) ∅ (alo, blo, 0) in
  let best := extend_left false (best.1.1 - alo) best in
  let best := extend_right false (ahi - (best.1.1 + size best)) best in
  let best := extend_left true (best.1.1 - alo) best in
  extend_right true (ahi - (best.1.1 + size best)) best.

End find_longest_match.

Definition Range : Type := nat * nat * nat * nat.

(** The [while queue] loop of [get_matching_blocks].  The model keeps
    the queue newest first, so that [queue.pop()] takes its head.  The
    loop gives back the queue it stopped with, which is empty unless the
    [steps] ran out. *)
Fixpoint blocks_loop (self : SequenceMatcher) (steps : nat)
    (queue : list Range) (matching_blocks : list Match)
  : list Range * list Match :=
  match steps, queue with
  | S steps', (alo, ahi, blo, bhi) :: queue' =>
      let x := find_longest_match self alo ahi blo bhi in
      let '(i, j, k) := x in
      if k =? 0 then blocks_loop self steps' queue' matching_blocks
      else
        let queue1 :=
          if (alo <? i) && (blo <? j)
          then (alo, i, blo, j) :: queue' else queue' in
        let queue2 :=
          if (i + k <? ahi) && (j + k <? bhi)
          then (i + k, ahi, j + k, bhi) :: queue1 else queue1 in
        blocks_loop self steps' queue2 (matching_blocks ++ [x])
  | _, _ => (queue, matching_blocks)
  end.

(** [matching_blocks.sort()]: tuples compare lexicographically. *)
Definition block_le (x y : Match) : bool :=
  let '(i1, j1, k1) := x in
  let '(i2, j2, k2) := y in
  (i1 <? i2) || ((i1 =? i2) && ((j1 <? j2) || ((j1 =? j2) && (k1 <=? k2)))).

Fixpoint insert_block (x : Match) (l : list Match) : list Match :=
  match l with
  | [] => [x]
  | y :: l' => if block_le x y then x :: l else y :: insert_block x l'
  end.

Definition sort_blocks (l : list Match) : list Match :=
  foldr insert_block [] l.

(** The loop that merges adjacent blocks; [(i1, j1, k1)] is the block
    under comparison. *)
Fixpoint collapse (cur : Match) (l : list Match) : list Match :=
  let '(i1, j1, k1) := cur in
  match l with
  | [] => if k1 =? 0 then [] else [cur]
  | (i2, j2, k2) :: l' =>
      if (i1 + k1 =? i2) && (j1 + k1 =? j2)
      then collapse (i1, j1, k1 + k2) l'
      else (if k1 =? 0 then [] else [cur]) ++ collapse (i2, j2, k2) l'
  end.

Definition steps_for (self : SequenceMatcher) : nat :=
  2 * length (a self) + 1.

Definition get_matching_blocks (self : SequenceMatcher) : list Match :=
  let la := length (a self) in
  let lb := length (b self) in
  let matching_blocks :=
    (blocks_loop self (steps_for self) [(0, la, 0, lb)] []).2 in
  let non_adjacent := collapse (0, 0, 0) (sort_blocks matching_blocks) in
  non_adjacent ++ [(la, lb, 0)].

(** The quotient of two natural numbers, the second positive. *)
Definition frac (n d : nat) : Q := Z.of_nat n # Pos.of_nat d.

Definition _calculate_ratio (matches length : nat) : Q :=
  if length =? 0 then 1%Q else frac (2 * matches) length.

Definition matched (self : SequenceMatcher) : nat :=
  foldr (λ triple acc, size triple + acc) 0 (get_matching_blocks self).

Definition ratio (self : SequenceMatcher) : Q :=
  _calculate_ratio (matched self) (length (a self) + length (b self)).

End difflib.

(** ** The classic ratio, after the words of the specification

    Find the longest common contiguous block of the two texts (of several
    longest ones, the one that starts earliest in the first text and,
    there, earliest in the second), then do the same with what lies to
    the left of the block in both texts and with what lies to its right,
    and add up the lengths. *)

Module classic.

(** The length of the longest common prefix. *)
Fixpoint common_prefix (s u : text) : nat :=
  match s, u with
  | x :: s', y :: u' =>
      if Ascii.eqb x y then S (common_prefix s' u') else 0
  | _, _ => 0
  end.

(** The blocks that start at position [i] of the first text, of which
    [si] is what remains, tried at every position [j] of the second. *)
Fixpoint try_starts_b (i : nat) (si : text) (j : nat) (uj : text)
    (best : difflib.Match) : difflib.Match :=
  match uj with
  | [] => best
  | _ :: uj' =>
      let k := common_prefix si uj in
      try_starts_b i si (S j) uj'
        (if difflib.size best <? k then (i, j, k) else best)
  end.

Fixpoint try_starts_a (i : nat) (si : text) (u : text)
    (best : difflib.Match) : difflib.Match :=
  match si with
  | [] => best
  | _ :: si' => try_starts_a (S i) si' u (try_starts_b i si 0 u best)
  end.

Definition longest_block (s u : text) : difflib.Match :=
  try_starts_a 0 s u (0, 0, 0).

(** The recursion shortens the first text at every call: [fuel] need
    not exceed its length. *)
Fixpoint matched_upto (fuel : nat) (s u : text) : nat :=
  match fuel with
  | 0 => 0
  | S fuel' =>
      let '(i, j, k) := longest_block s u in
      if k =? 0 then 0
      else matched_upto fuel' (take i s) (take j u) + k
           + matched_upto fuel' (drop (i + k) s) (drop (j + k) u)
  end.

Definition matched (s u : text) : nat := matched_upto (length s) s u.

End classic.

(** ** _check_key_info *)

Definition stop_words : gset text :=
  list_to_set (map txt
    ["is"; "was"; "the"; "a"; "an"; "and"; "or"; "but"; "in"; "on"; "at";
     "to"; "for"; "of"; "with"; "by"; "from"]%string).

(** [set(s.lower().split())] *)
Definition word_set (s : text) : gset text := list_to_set (split (lower s)).

Definition _check_key_info (gold pred : text) : bool :=
  let gold_words := word_set gold ∖ stop_words in
  let pred_words := word_set pred ∖ stop_words in
  if size gold_words =? 0 then false
  else
    let overlap := size (gold_words ∩ pred_words) in
    let overlap_ratio := difflib.frac overlap (size gold_words) in
    Qle_bool (1 # 2) overlap_ratio.

(** ** __call__ *)

(** [max(x, y)] of two numbers: [y] when it is greater, else [x]. *)
Definition pymax (x y : Q) : Q := if Qle_bool y x then x else y.

Definition float_of_bool (flag : bool) : Q := (if flag then 1 else 0)%Q.

(** The values computed between normalisation and [return].  The
    variable [similarity] is assigned three times: by the ratio, by the
    bonus for partial matches and by the bonus for key information. *)
Record Signals : Type := {
  exact_match : Q;
  similarity_ratio : Q;
  similarity_partial : Q;
  contains_key_info : bool;
  similarity : Q;
  total_score : Q
}.

Definition signals (gold_text pred_text : text) : Signals :=
  let gold_clean := _normalize_text gold_text in
  let pred_clean := _normalize_text pred_text in
  let exact_match : Q :=
    (if decide (lower gold_clean = lower pred_clean) then 1 else 0)%Q in
  let similarity0 :=
    difflib.ratio (difflib.init true (lower gold_clean) (lower pred_clean)) in
  let similarity1 :=
    if str_in (lower gold_clean) (lower pred_clean)
       || str_in (lower pred_clean) (lower gold_clean)
    then pymax similarity0 (7 # 10) else similarity0 in
  let contains_key_info := _check_key_info gold_clean pred_clean in
  let similarity2 :=
    if contains_key_info then pymax similarity1 (8 # 10) else similarity1 in
  {| exact_match := exact_match;
     similarity_ratio := similarity0;
     similarity_partial := similarity1;
     contains_key_info := contains_key_info;
     similarity := similarity2;
     total_score := pymax exact_match similarity2 |}.

(** What a call returns: one number, or the [dict] of the signals. *)
Inductive Score : Type :=
| Scalar (x : Q)
| Detailed (d : gmap string Q).

Definition is_empty (s : text) : bool :=
  match s with [] => true | _ => false end.

(** The body of the [try] statement. *)
Definition score_body (self : WorkingRAGMetric) (gold pred : PyVal)
    (trace : bool) : exn + Score :=
  let* gold_text := _extract_text self gold in
  let* pred_text := _extract_text self pred in
  if is_empty gold_text || is_empty pred_text
  then
    inr (if trace
         then Detailed
                (<["exact_match"%string := 0%Q]>
                   (<["similarity"%string := 0%Q]>
                      (<["total"%string := 0%Q]> ∅)))
         else Scalar 0)
  else
    let sg := signals gold_text pred_text in
    inr (if trace
         then Detailed
                (<["exact_match"%string := exact_match sg]>
                   (<["similarity"%string := similarity sg]>
                      (<["contains_key_info"%string :=
                           float_of_bool (contains_key_info sg)]>
                         (<["total"%string := total_score sg]> ∅))))
         else Scalar (total_score sg)).

(** A call may print lines and then returns or raises. *)
Definition Outcome (A : Type) : Type := list text * (exn + A).

(** [try: body  except Exception as e: handler]: an exception outside
    [Exception] passes through. *)
Definition try_except {A} (body : exn + A) (handler : exn -> Outcome A)
  : Outcome A :=
  match body with
  | inr x => ([], inr x)
  | inl e => if is_exception e then handler e else ([], inl e)
  end.

Definition error_score (trace : bool) : Score :=
  if trace
  then Detailed (<["error"%string := 1%Q]> (<["total"%string := 0%Q]> ∅))
  else Scalar 0.

(** The handler: the f-string takes [str(e)], which may raise; the
    standard output is taken to accept the line. *)
Definition handler (trace : bool) (e : exn) : Outcome Score :=
  match str_of_exn e with
  | inr msg => ([txt "Error in RAG metric: " ++ msg], inr (error_score trace))
  | inl raised => ([], inl raised)
  end.

Definition __call__ (self : WorkingRAGMetric) (gold pred : PyVal)
    (trace : bool) : Outcome Score :=
  try_except (score_body self gold pred trace) (handler trace).

(** The number a call stands for: the scalar, or the entry [total]. *)
Definition total_of (r : Score) : option Q :=
  match r with
  | Scalar x => Some x
  | Detailed d => d !! "total"%string
  end.

(** ** Properties the statements speak of *)

Definition spaceopt (o : option ascii) : bool :=
  match o with Some c => isspace c | None => false end.

(** No white space at either end. *)
Definition trimmed (s : text) : Prop :=
  spaceopt (head s) = false ∧ spaceopt (last s) = false.

(** [p] occurs in [s] as a contiguous piece. *)
Definition substring (p s : text) : Prop :=
  ∃ pre post, s = pre ++ p ++ post.

(** Two adjacent white-space characters somewhere in [s]. *)
Definition has_space_run (s : text) : Prop :=
  ∃ pre c1 c2 post,
    s = pre ++ c1 :: c2 :: post ∧ isspace c1 = true ∧ isspace c2 = true.

(** One of the words the, a, an, in any letter case, with no word
    character on either side. *)
Definition standalone_article (s : text) : Prop :=
  ∃ pre w post,
    s = pre ++ w ++ post ∧ lower w ∈ re.articles
    ∧ re.wordopt (last pre) = false ∧ re.wordopt (head post) = false.

Definition is_inr {A B} (x : A + B) : bool :=
  match x with inr _ => true | inl _ => false end.

(** A value that the field loop passes over: neither a string, nor a
    [dict], nor a [list], nor an instance of a subclass of these. *)
Definition passed_over (v : PyVal) : bool :=
  match builtin v with
  | VStr _ | VDict _ | VList _ => false
  | _ => true
  end.

(** Built from the built-in classes and from objects that are no
    instances of a subclass of a built-in class. *)
Fixpoint plain (v : PyVal) : bool :=
  match v with
  | VSub _ _ _ => false
  | VList items => forallb plain items
  | VDict entries => forallb (λ kv, plain kv.2) entries
  | _ => true
  end.

(** The value that decides the loop over the candidate fields: that of
    the first field that is not passed over. *)
Fixpoint first_usable (d : list (text * PyVal)) (fields : list text)
  : option PyVal :=
  match fields with
  | [] => None
  | field :: fields' =>
      match dict_get d field with
      | Some v => if passed_over v then first_usable d fields' else Some v
      | None => first_usable d fields'
      end
  end.


(** The call raises to its caller. *)
Definition propagates (self : WorkingRAGMetric) (gold pred : PyVal)
    (trace : bool) : Prop :=
  ∃ e raised,
    score_body self gold pred trace = inl e
    ∧ (∀ msg, e ≠ Exception msg)
    ∧ __call__ self gold pred trace = ([], inl raised).

Definition zero_scores : gmap string Q :=
  <["exact_match"%string := 0%Q]>
    (<["similarity"%string := 0%Q]> (<["total"%string := 0%Q]> ∅)).

(** A prediction of 200 characters in which [x] is popular. *)
Definition long_prediction : text := txt "y" ++ repeat "x"%char 199.

(** The character before the rest [post] of a text split as
    [pre ++ post], when [prev] stands before the whole text. *)
Definition prev_of (prev : option ascii) (pre : text) : option ascii :=
  match last pre with Some c => Some c | None => prev end.

(** An article starts right at the head of [s], [prev] standing before. *)
Definition article_at (prev : option ascii) (s : text) : Prop :=
  re.wordopt prev = false
  ∧ ∃ w post, s = w ++ post ∧ lower w ∈ re.articles
              ∧ re.wordopt (head post) = false.

Definition no_article_from (prev : option ascii) (s : text) : Prop :=
  ∀ pre rest, s = pre ++ rest → ¬ article_at (prev_of prev pre) rest.

(** A run of word characters of length [n] at the head of [s], closed by
    a character that is not one, or by the end. *)
Definition word_run (n : nat) (s : text) : Prop :=
  ∃ w post, s = w ++ post ∧ length w = n
            ∧ Forall (λ c, isword c = true) w
            ∧ re.wordopt (head post) = false.

(** ** Notions for the matching blocks *)

(** The block [m] lies inside the range searched. *)
Definition inside (alo ahi blo bhi : nat) (m : difflib.Match) : Prop :=
  alo ≤ m.1.1 ∧ m.1.1 + m.2 ≤ ahi ∧ blo ≤ m.1.2 ∧ m.1.2 + m.2 ≤ bhi.

(** Every run recorded after [n] rows has between 1 and [n] elements,
    ends inside the range of [b] and starts inside it. *)
Definition runs_bounded (blo bhi : nat) (n : nat) (j2len : gmap nat nat)
  : Prop :=
  ∀ j k, j2len !! j = Some k →
    1 ≤ k ∧ k ≤ n ∧ k ≤ j + 1 - blo ∧ blo ≤ j ∧ j < bhi.

Definition total_size (l : list difflib.Match) : nat :=
  foldr (λ m acc, difflib.size m + acc) 0 l.

Definition well_formed (r : difflib.Range) : Prop :=
  r.1.1.1 ≤ r.1.1.2 ∧ r.1.2 ≤ r.2.

Definition room_a (queue : list difflib.Range) : nat :=
  foldr (λ r acc, (r.1.1.2 - r.1.1.1) + acc) 0 queue.

Definition room_b (queue : list difflib.Range) : nat :=
  foldr (λ r acc, (r.2 - r.1.2) + acc) 0 queue.

(** Steps that empty a queue: each range takes at most twice its length
    in [a] plus one. *)
Definition steps_needed (queue : list difflib.Range) : nat :=
  foldr (λ r acc, 2 * (r.1.1.2 - r.1.1.1) + 1 + acc) 0 queue.

(** The positions of [x] in [s], counted from [j], in increasing order. *)
Fixpoint positions (x : ascii) (j : nat) (s : text) : list nat :=
  match s with
  | [] => []
  | y :: s' =>
      if Ascii.eqb y x then j :: positions x (S j) s'
      else positions x (S j) s'
  end.

(** The block [m] is common to the two texts. *)
Definition block (s u : text) (m : difflib.Match) : Prop :=
  ∀ d, d < m.2 → same_at s u (m.1.1 + d) (m.1.2 + d) = true.

(** [m] is a longest common block inside the range; of the longest ones
    it starts earliest in [s] and, there, earliest in [u]; it is empty
    only at the corner of the range. *)
Definition first_longest (s u : text) (alo ahi blo bhi : nat)
    (m : difflib.Match) : Prop :=
  inside alo ahi blo bhi m ∧ block s u m
  ∧ (m.2 = 0 → m = (alo, blo, 0))
  ∧ ∀ m', inside alo ahi blo bhi m' → block s u m' → 1 ≤ m'.2 →
      m'.2 < m.2
      ∨ (m'.2 = m.2
         ∧ (m.1.1 < m'.1.1 ∨ (m.1.1 = m'.1.1 ∧ m.1.2 ≤ m'.1.2))).

(** The length of the common run that ends with the [n]-th element of
    [s] counted from [alo] and with element [j] of [u], inside the
    range: the table that the rows of the scan fill. *)
Fixpoint run (s u : text) (alo blo bhi : nat) (n j : nat) {struct n} : nat :=
  match n with
  | 0 => 0
  | S n' =>
      if (blo <=? j) && (j <? bhi) && same_at s u (alo + n') j
      then S (match j with 0 => 0 | S j' => run s u alo blo bhi n' j' end)
      else 0
  end.

(** Cell [(n', j')] comes before cell [(n, j)] in the scan. *)
Definition before (n j n' j' : nat) : Prop := n' < n ∨ (n' = n ∧ j' < j).

(** [best] is what the scan holds when it reaches cell [(n, j)]: the
    block of the first cell with the longest run so far. *)
Definition best_before (s u : text) (alo blo bhi : nat) (n j : nat)
    (best : difflib.Match) : Prop :=
  (∀ n' j', before n j n' j' → run s u alo blo bhi n' j' ≤ best.2)
  ∧ (best.2 = 0 → best = (alo, blo, 0))
  ∧ (1 ≤ best.2 →
     ∃ n0 j0, before n j n0 j0 ∧ run s u alo blo bhi n0 j0 = best.2
       ∧ best = (alo + n0 - best.2, j0 + 1 - best.2, best.2)
       ∧ ∀ n' j', before n j n' j' → run s u alo blo bhi n' j' = best.2 →
           n0 < n' ∨ (n0 = n' ∧ j0 ≤ j')).

(** [best] is what the classic search holds when it reaches the start
    [(i, j)]. *)
Definition tried_before (s u : text) (i j : nat) (best : difflib.Match)
  : Prop :=
  inside 0 (length s) 0 (length u) best ∧ block s u best
  ∧ (best.2 = 0 → best = (0, 0, 0))
  ∧ (1 ≤ best.2 → before i j best.1.1 best.1.2)
  ∧ ∀ m', block s u m' → 1 ≤ m'.2 → before i j m'.1.1 m'.1.2 →
      m'.2 < best.2
      ∨ (m'.2 = best.2
         ∧ (best.1.1 < m'.1.1 ∨ (best.1.1 = m'.1.1 ∧ best.1.2 ≤ m'.1.2))).

(** [s[lo:hi]] *)
Definition slice (s : text) (lo hi : nat) : text := take (hi - lo) (drop lo s).

(** What the classic recursion finds in the ranges of the queue. *)
Definition region_matched (a b : text) (r : difflib.Range) : nat :=
  classic.matched (slice a r.1.1.1 r.1.1.2) (slice b r.1.2 r.2).

Definition queue_matched (a b : text) (queue : list difflib.Range) : nat :=
  foldr (λ r acc, region_matched a b r + acc) 0 queue.

Definition in_texts (a b : text) (r : difflib.Range) : Prop :=
  r.1.1.1 ≤ r.1.1.2 ∧ r.1.1.2 ≤ length a ∧ r.1.2 ≤ r.2 ∧ r.2 ≤ length b.

(** ** Notions for the further properties *)

(** A text that normalisation leaves as it is. *)
Definition canonical (s : text) : Prop :=
  trimmed s
  ∧ (∀ c, c ∈ s → re.ispunct c = false)
  ∧ ¬ standalone_article s
  ∧ (∀ c, c ∈ s → isspace c = true → c = " "%char)
  ∧ ¬ has_space_run s.

(** The characters of [s] that are not white space. *)
Definition visible (s : text) : text :=
  List.filter (λ c, negb (isspace c)) s.

(** The element [x] has kept its entry in the index of [b]. *)
Definition kept (self : difflib.SequenceMatcher) (x : ascii) : bool :=
  match default [] (difflib.b2j self !! x) with [] => false | _ => true end.

(** The number of elements in a row, up to the [m]-th of [b], that have
    kept their entries. *)
Fixpoint kept_run (self : difflib.SequenceMatcher) (m : nat) : nat :=
  match m with
  | 0 => 0
  | S m' =>
      match difflib.b self !! m' with
      | Some x => if kept self x then S (kept_run self m') else 0
      | None => 0
      end
  end.

(** The block lies on the diagonal and ends within the first [i] rows. *)
Definition diagonal (i : nat) (best : difflib.Match) : Prop :=
  best.1.1 = best.1.2 ∧ best.1.1 + best.2 ≤ i.

(** What the scan of a text against itself holds after [i] rows. *)
Definition rows_scanned (self : difflib.SequenceMatcher) (i : nat)
    (j2len : gmap nat nat) (best : difflib.Match) : Prop :=
  difflib.j2len_get j2len i = kept_run self i
  ∧ (∀ j k, j2len !! j = Some k →
       k ≤ kept_run self i ∧ k ≤ kept_run self (S j))
  ∧ (∀ p, p ≤ i → kept_run self p ≤ best.2)
  ∧ diagonal i best.

(** Induction on values, through the lists they nest. *)
Section PyVal_nested_ind.
Variable P : PyVal → Prop.
Hypothesis Hstr : ∀ s, P (VStr s).
Hypothesis Hint : ∀ z, P (VInt z).
Hypothesis Hnone : P VNone.
Hypothesis Hlist : ∀ items, Forall P items → P (VList items).
Hypothesis Hdict : ∀ entries, Forall (λ kv, P kv.2) entries → P (VDict entries).
Hypothesis Hobj : ∀ s r, P (VObj s r).
Hypothesis Hsub : ∀ base s r, P base → P (VSub base s r).

Fixpoint PyVal_nested_ind (v : PyVal) : P v :=
  match v with
  | VStr s => Hstr s
  | VInt z => Hint z
  | VNone => Hnone
  | VList items =>
      Hlist items
        ((fix all (l : list PyVal) : Forall P l :=
            match l with
            | [] => Forall_nil_2 P
            | x :: l' => Forall_cons_2 P x l' (PyVal_nested_ind x) (all l')
            end) items)
  | VDict entries =>
      Hdict entries
        ((fix all (l : list (text * PyVal)) : Forall (λ kv, P kv.2) l :=
            match l with
            | [] => Forall_nil_2 _
            | kv :: l' =>
                Forall_cons_2 (λ kv, P kv.2) kv l'
                  (PyVal_nested_ind kv.2) (all l')
            end) entries)
  | VObj s r => Hobj s r
  | VSub base s r => Hsub base s r (PyVal_nested_ind base)
  end.
End PyVal_nested_ind.

Arguments _normalize_text : simpl never.
Arguments _check_key_info : simpl never.
Arguments difflib.ratio : simpl never.
Arguments difflib.init : simpl never.

(** ** Lemmas on characters and on strip *)

Ltac each_char c :=
  destruct c as [[] [] [] [] [] [] [] []]; vm_compute; try reflexivity;
  try discriminate.

Ltac reindex H :=
  match goal with
  | |- same_at _ _ ?i ?j = true =>
      match type of H with
      | same_at _ _ ?i' ?j' = true =>
          replace i with i' by lia; replace j with j' by lia; exact H
      end
  end.

Lemma space_not_word c : isspace c = true → isword c = false.
Proof. each_char c. Qed.

Lemma lstrip_head s : spaceopt (head (lstrip s)) = false.
Proof.
  induction s as [|c s IH]; simpl; [done|].
  destruct (isspace c) eqn:E; simpl; [exact IH | exact E].
Qed.

Lemma lstrip_split s :
  ∃ ws, s = ws ++ lstrip s ∧ Forall (λ c, isspace c = true) ws.
Proof.
  induction s as [|c s (ws & Hs & Hws)]; simpl.
  - by exists [].
  - destruct (isspace c) eqn:E.
    + exists (c :: ws). split; [simpl; congruence | by constructor].
    + by exists [].
Qed.

Lemma last_rev (s : text) : last (rev s) = head s.
Proof. destruct s as [|c s]; simpl; [done|]. by rewrite last_snoc. Qed.

Lemma head_rev (s : text) : head (rev s) = last s.
Proof. by rewrite <- (rev_involutive s) at 2; rewrite last_rev. Qed.

Lemma rstrip_last s : spaceopt (last (rstrip s)) = false.
Proof. unfold rstrip. rewrite last_rev. apply lstrip_head. Qed.

Lemma rstrip_split s :
  ∃ ws, s = rstrip s ++ ws ∧ Forall (λ c, isspace c = true) ws.
Proof.
  unfold rstrip. destruct (lstrip_split (rev s)) as (ws & Hs & Hws).
  exists (rev ws). split.
  - rewrite <- rev_app_distr, <- Hs. by rewrite rev_involutive.
  - apply Forall_forall. intros c Hc. rewrite Forall_forall in Hws.
    apply Hws. apply list_elem_of_In. apply list_elem_of_In in Hc.
    by apply in_rev.
Qed.

Lemma head_app_nonempty (s r : text) c :
  head s = Some c → head (s ++ r) = Some c.
Proof. by destruct s. Qed.

Lemma rstrip_head s : spaceopt (head s) = false → spaceopt (head (rstrip s)) = false.
Proof.
  intros H. destruct (rstrip_split s) as (ws & Hs & _).
  destruct (rstrip s) as [|c r] eqn:E; [done|].
  rewrite Hs in H. exact H.
Qed.

Lemma strip_trimmed s : trimmed (strip s).
Proof.
  split; unfold strip.
  - apply rstrip_head, lstrip_head.
  - apply rstrip_last.
Qed.

Lemma strip_split s :
  ∃ ws1 ws2, s = ws1 ++ strip s ++ ws2
    ∧ Forall (λ c, isspace c = true) ws1 ∧ Forall (λ c, isspace c = true) ws2.
Proof.
  destruct (lstrip_split s) as (ws1 & H1 & Hw1).
  destruct (rstrip_split (lstrip s)) as (ws2 & H2 & Hw2).
  exists ws1, ws2. unfold strip. by rewrite <- H2.
Qed.

Lemma strip_nil : strip [] = [].
Proof. reflexivity. Qed.

(** ** Conversion to text and _extract_text *)

Arguments py_repr : simpl never.
Arguments py_str : simpl never.

Lemma py_repr_list items :
  py_repr (VList items) =
  let* rs := sequence (map py_repr items) in
  inr (txt "[" ++ join (txt ", ") rs ++ txt "]").
Proof. reflexivity. Qed.

Lemma py_repr_dict entries :
  py_repr (VDict entries) =
  let* rs :=
    sequence (map (λ kv, let* r := py_repr kv.2 in
                         inr (repr_str kv.1 ++ txt ": " ++ r)) entries) in
  inr (txt "{" ++ join (txt ", ") rs ++ txt "}").
Proof. reflexivity. Qed.

Lemma builtin_not_sub v base s r : builtin v ≠ VSub base s r.
Proof.
  induction v as [ | | | | | |b s' r' IH] using PyVal_nested_ind; try done.
Qed.

Lemma bracketed_trimmed (o c : ascii) (mid : text) :
  isspace o = false → isspace c = false → trimmed (o :: mid ++ [c]).
Proof.
  intros Ho Hc. split; simpl; [done|].
  change (o :: mid ++ [c]) with ((o :: mid) ++ [c]). by rewrite last_snoc.
Qed.

(** The text of a [list] or of a [dict] of the built-in classes is
    enclosed in brackets. *)
Lemma py_str_container_trimmed v s :
  builtin v = v → passed_over v = false → (∀ x, v ≠ VStr x) →
  py_str v = inr s → trimmed s.
Proof.
  destruct v as [x|z| |items|entries|a b|base a b]; simpl; try discriminate.
  - intros _ _ H. by destruct (H x).
  - intros _ _ _. unfold py_str. rewrite py_repr_list.
    destruct (sequence _); simpl; [discriminate|].
    intros [= <-]. by apply bracketed_trimmed.
  - intros _ _ _. unfold py_str. rewrite py_repr_dict.
    destruct (sequence _); simpl; [discriminate|].
    intros [= <-]. by apply bracketed_trimmed.
  - intros H. by apply builtin_not_sub in H.
Qed.

Lemma bind_strip_trimmed (m : exn + text) s :
  (let* x := m in inr (strip x)) = inr s → trimmed s.
Proof. destruct m; simpl; [discriminate|]. intros [= <-]. apply strip_trimmed. Qed.

(** The loop over the fields returns what its first usable field gives. *)
Lemma try_fields_first_usable d fields :
  try_fields d fields
  = match first_usable d fields with
    | Some v =>
        Some (match builtin v with
              | VStr s => inr (strip s)
              | _ => py_str v
              end)
    | None => None
    end.
Proof.
  induction fields as [|f fs IH]; cbn [try_fields first_usable]; [done|].
  destruct (dict_get d f) as [v|]; [|exact IH].
  unfold passed_over. destruct (builtin v) eqn:E; first [exact IH|idtac].
  all: by rewrite E.
Qed.

Lemma first_usable_spec d fields v :
  first_usable d fields = Some v →
  passed_over v = false ∧ ∃ k, k ∈ fields ∧ dict_get d k = Some v.
Proof.
  induction fields as [|f fs IH]; simpl; [done|].
  destruct (dict_get d f) as [x|] eqn:E.
  - destruct (passed_over x) eqn:Ex.
    + intros (H1 & k & H2 & H3)%IH. split; [done|].
      exists k. split; [by right|done].
    + intros [= <-]. split; [done|]. exists f. split; [by left|done].
  - intros (H1 & k & H2 & H3)%IH. split; [done|].
    exists k. split; [by right|done].
Qed.

Lemma used_field_trimmed v s :
  passed_over v = false →
  match builtin v with VStr x => inr (strip x) | _ => py_str v end = inr s →
  trimmed s ∨ (builtin v ≠ v ∧ py_str v = inr s).
Proof.
  intros Hv.
  destruct v as [x|z| |items|entries|a b|base a b]; try discriminate Hv.
  - intros [= <-]. left. apply strip_trimmed.
  - intros Hs. left. by apply (py_str_container_trimmed (VList items)).
  - intros Hs. left. by apply (py_str_container_trimmed (VDict entries)).
  - destruct (builtin (VSub base a b)) as [x| | | | | | ] eqn:E; intros Hs;
      try (right; split; [done|exact Hs]).
    + left. injection Hs as <-. apply strip_trimmed.
    + by apply builtin_not_sub in E.
Qed.

Lemma after_fields_of_trimmed whole d s :
  after_fields_of whole d = inr s → trimmed s.
Proof.
  unfold after_fields_of.
  destruct (dict_get d (txt "outputs")) as [outputs|];
    [|apply bind_strip_trimmed].
  destruct (builtin outputs) as [x|z| |items|entries|a b|base a b];
    try apply bind_strip_trimmed.
  destruct (dict_get entries (txt "answer")); apply bind_strip_trimmed.
Qed.

(** What [_extract_text] returns is trimmed, unless it is the text of an
    instance of a subclass found in a field. *)
Lemma extract_text_trimmed self data s :
  _extract_text self data = inr s →
  trimmed s
  ∨ ∃ d v, builtin data = VDict d
           ∧ first_usable d (candidate_fields self) = Some v
           ∧ builtin v ≠ v ∧ py_str v = inr s.
Proof.
  unfold _extract_text.
  destruct (builtin data) as [x|z| |items|entries|a b|base a b] eqn:E;
    try (intros H; left; revert H; exact (bind_strip_trimmed _ _)).
  - intros [= <-]. left. apply strip_trimmed.
  - unfold extract_from_of. rewrite try_fields_first_usable.
    destruct (first_usable entries (candidate_fields self)) as [v|] eqn:Ev.
    + intros [= Hs]. apply first_usable_spec in Ev as Hv.
      destruct Hv as [Hv _].
      destruct (used_field_trimmed v s Hv Hs) as [?|[? ?]]; [by left|].
      right. by exists entries, v.
    + intros H. left. by eapply after_fields_of_trimmed.
Qed.

Lemma dict_get_elem d k v : dict_get d k = Some v → (k, v) ∈ d.
Proof.
  induction d as [|[k' x] d IH]; simpl; [done|].
  case_decide; [intros [= <-]; subst; by left|right; auto].
Qed.

Lemma plain_is_builtin v : plain v = true → builtin v = v.
Proof. by destruct v. Qed.

(** On values without instances of subclasses the text is trimmed. *)
Lemma extract_text_trimmed_plain self data s :
  plain data = true → _extract_text self data = inr s → trimmed s.
Proof.
  intros Hp [H|(d & v & Hd & Hv & Hne & _)]%extract_text_trimmed; [done|].
  rewrite (plain_is_builtin data Hp) in Hd. subst data. simpl in Hp.
  apply first_usable_spec in Hv as (_ & k & _ & Hk).
  apply dict_get_elem in Hk. rewrite forallb_forall in Hp.
  apply list_elem_of_In in Hk. specialize (Hp _ Hk). simpl in Hp.
  by apply plain_is_builtin in Hp.
Qed.








(** The text of an instance of a [dict] subclass found in a field is
    returned as [str()] gives it, white space included; an integer of
    4301 digits makes the extractor raise. *)
Example extract_text_of_subclass_in_field :
  _extract_text default_metric
    (VDict [(txt "answer",
             VSub (VDict []) (inr (txt " padded ")) (inr (txt "{}")))])
  = inr (txt " padded ").
Proof. reflexivity. Qed.

Example extract_text_of_long_integer :
  ∃ msg, _extract_text default_metric (VInt (10 ^ 4300))
         = inl (Exception msg).
Proof. eexists. vm_compute. reflexivity. Qed.



Example passes_over_to_response :
  _extract_text default_metric
    (VDict [(txt "answer", VInt 42); (txt "response", VStr (txt " x "))])
  = inr (txt "x").
Proof. reflexivity. Qed.

Example passes_over_to_whole_dict :
  _extract_text default_metric (VDict [(txt "answer", VInt 42)])
  = inr (txt "{'answer': 42}").
Proof. reflexivity. Qed.

(** ** The call: faults and the shape of the result *)


Lemma call_handles self gold pred trace e :
  score_body self gold pred trace = inl e →
  __call__ self gold pred trace
  = match e with
    | Exception msg =>
        ([txt "Error in RAG metric: " ++ msg], inr (error_score trace))
    | ExceptionNoStr raised => ([], inl raised)
    | BaseException _ => ([], inl e)
    end.
Proof. unfold __call__, try_except. intros ->. by destruct e. Qed.

Lemma score_body_fault self gold pred trace e :
  _extract_text self gold = inl e
  ∨ (is_inr (_extract_text self gold) = true ∧ _extract_text self pred = inl e) →
  score_body self gold pred trace = inl e.
Proof.
  unfold score_body. intros [->|[Hg ->]]; [done|].
  by destruct (_extract_text self gold).
Qed.

Lemma call_propagates self gold pred trace e :
  score_body self gold pred trace = inl e → (∀ msg, e ≠ Exception msg) →
  propagates self gold pred trace.
Proof.
  intros Hb He. pose proof (call_handles _ _ _ _ _ Hb) as Hc.
  destruct e as [msg|raised|msg]; [by destruct (He msg)| |];
    eexists _, _; eauto.
Qed.




(** The handler itself raises when the exception it caught cannot be
    converted to text. *)
Example call_raises_from_the_handler :
  __call__ default_metric (VStr (txt "Paris"))
    (VObj (inl (ExceptionNoStr (Exception (txt "no text"))))
       (inr (txt "<obj>"))) false
  = ([], inl (Exception (txt "no text"))).
Proof. reflexivity. Qed.



(** ** difflib: every block lies inside the range searched *)

Section find_longest_match_range.
Variable self : difflib.SequenceMatcher.
Variables alo ahi blo bhi : nat.
Hypothesis Ha : alo ≤ ahi.
Hypothesis Hb : blo ≤ bhi.

Local Abbreviation inside := (inside alo ahi blo bhi).
Local Abbreviation runs_bounded := (runs_bounded blo bhi).

Lemma j2len_get_bounded n j2len j :
  runs_bounded n j2len → blo ≤ j →
  difflib.j2len_get j2len j ≤ n ∧ difflib.j2len_get j2len j ≤ j - blo.
Proof.
  intros Hj2 Hj. destruct j as [|j]; simpl; [lia|].
  destruct (j2len !! j) as [k|] eqn:E; simpl; [|lia].
  destruct (Hj2 _ _ E). lia.
Qed.

Lemma scan_row_inside i j2len js newj2len best :
  alo ≤ i → i < ahi →
  runs_bounded (i - alo) j2len →
  runs_bounded (i + 1 - alo) newj2len → inside best →
  runs_bounded (i + 1 - alo)
    (difflib.scan_row blo bhi i j2len js newj2len best).1
  ∧ inside (difflib.scan_row blo bhi i j2len js newj2len best).2.
Proof.
  intros Hi1 Hi2 Hold. revert newj2len best.
  induction js as [|j js IH]; intros newj2len best Hnew Hbest; simpl.
  - done.
  - destruct (j <? blo) eqn:E1; [by apply IH|].
    destruct (bhi <=? j) eqn:E2; [done|].
    apply Nat.ltb_ge in E1. apply Nat.leb_gt in E2.
    destruct (j2len_get_bounded _ _ j Hold E1) as [Hk1 Hk2].
    apply IH.
    + intros j' k'. rewrite lookup_insert.
      case_decide as Hjj; [|by apply Hnew].
      intros Hk; simplify_eq. lia.
    + destruct (difflib.size best <? _); [|done].
      unfold inside; simpl. lia.
Qed.

Lemma scan_rows_inside n : ∀ i j2len best,
  alo ≤ i → i + n ≤ ahi →
  runs_bounded (i - alo) j2len → inside best →
  inside (difflib.scan_rows self blo bhi (seq i n) j2len best).
Proof.
  induction n as [|n IH]; intros i j2len best Hi1 Hi2 Hj2 Hbest; simpl.
  - done.
  - assert (runs_bounded (i + 1 - alo) ∅) as Hemp
      by (intros j k; by rewrite lookup_empty).
    match goal with |- context [difflib.scan_row _ _ _ _ ?js _ _] =>
      pose proof (scan_row_inside i j2len js ∅ best
                    ltac:(lia) ltac:(lia) Hj2 Hemp Hbest) as Hrow;
      destruct (difflib.scan_row blo bhi i j2len js ∅ best)
        as [newj2len best'] end.
    destruct Hrow as [Hnew Hbest'].
    apply IH; try lia; [|done].
    by replace (S i - alo) with (i + 1 - alo) by lia.
Qed.

Lemma extend_left_inside junk room : ∀ best,
  inside best → inside (difflib.extend_left self alo blo junk room best).
Proof.
  induction room as [|room IH]; intros [[besti bestj] bestsize] Hbest;
    simpl; [done|].
  destruct (_ && _) eqn:E; [|done].
  repeat (apply andb_prop in E as [E ?]).
  apply Nat.ltb_lt in E. rewrite Nat.ltb_lt in *.
  apply IH. unfold inside in *; simpl in *. lia.
Qed.

Lemma extend_right_inside junk room : ∀ best,
  inside best → inside (difflib.extend_right self ahi bhi junk room best).
Proof.
  induction room as [|room IH]; intros [[besti bestj] bestsize] Hbest;
    simpl; [done|].
  destruct (_ && _) eqn:E; [|done].
  repeat (apply andb_prop in E as [E ?]).
  apply Nat.ltb_lt in E. rewrite Nat.ltb_lt in *.
  apply IH. unfold inside in *; simpl in *. lia.
Qed.

(** The room given to the loops is enough: more changes nothing. *)
Lemma extend_left_room junk room : ∀ room' best,
  best.1.1 - alo ≤ room → room ≤ room' →
  difflib.extend_left self alo blo junk room' best
  = difflib.extend_left self alo blo junk room best.
Proof.
  induction room as [|room IH]; intros room' [[besti bestj] bestsize] H Hr;
    simpl in H.
  - destruct room' as [|room']; simpl; [done|].
    replace (alo <? besti) with false; [done|].
    symmetry. apply Nat.ltb_ge. lia.
  - destruct room' as [|room']; [lia|]. simpl.
    destruct (_ && _) eqn:E; [|done].
    apply IH; simpl; lia.
Qed.

Lemma extend_right_room junk room : ∀ room' best,
  ahi - (best.1.1 + best.2) ≤ room → room ≤ room' →
  difflib.extend_right self ahi bhi junk room' best
  = difflib.extend_right self ahi bhi junk room best.
Proof.
  induction room as [|room IH]; intros room' [[besti bestj] bestsize] H Hr;
    simpl in H.
  - destruct room' as [|room']; simpl; [done|].
    replace (besti + bestsize <? ahi) with false; [done|].
    symmetry. apply Nat.ltb_ge. lia.
  - destruct room' as [|room']; [lia|]. simpl.
    destruct (_ && _) eqn:E; [|done].
    apply IH; simpl; lia.
Qed.

Lemma find_longest_match_inside :
  inside (difflib.find_longest_match self alo ahi blo bhi).
Proof.
  unfold difflib.find_longest_match.
  apply extend_right_inside, extend_left_inside, extend_right_inside,
    extend_left_inside.
  apply scan_rows_inside; try lia.
  - intros j k. by rewrite lookup_empty.
  - unfold inside; simpl; lia.
Qed.
End find_longest_match_range.

(** ** difflib: the blocks fit in both texts *)

Lemma total_size_app l1 l2 :
  total_size (l1 ++ l2) = total_size l1 + total_size l2.
Proof. induction l1 as [|m l1 IH]; simpl; [done|]. rewrite IH. lia. Qed.

Section blocks_loop_facts.
Variable self : difflib.SequenceMatcher.

Lemma blocks_loop_fits steps : ∀ queue blocks,
  Forall well_formed queue →
  total_size (difflib.blocks_loop self steps queue blocks).2
    ≤ total_size blocks + room_a queue
  ∧ total_size (difflib.blocks_loop self steps queue blocks).2
    ≤ total_size blocks + room_b queue.
Proof.
  induction steps as [|steps IH]; intros queue blocks Hq; simpl.
  { destruct queue; simpl; lia. }
  destruct queue as [|[[[alo ahi] blo] bhi] queue]; simpl; [lia|].
  apply Forall_cons in Hq as [[Ha Hb] Hq]; simpl in Ha, Hb.
  pose proof (find_longest_match_inside self alo ahi blo bhi Ha Hb) as Hin.
  destruct (difflib.find_longest_match self alo ahi blo bhi)
    as [[i j] k]. destruct Hin as (H1 & H2 & H3 & H4); simpl in *.
  destruct (k =? 0).
  { destruct (IH queue blocks Hq). lia. }
  match goal with |- context [difflib.blocks_loop self steps ?q ?bl] =>
    destruct (IH q bl) as [IHa IHb] end.
  { destruct ((alo <? i) && (blo <? j)), ((i + k <? ahi) && (j + k <? bhi));
      repeat (apply Forall_cons; split); try done;
      unfold well_formed; simpl; lia. }
  rewrite total_size_app in IHa, IHb. simpl in IHa, IHb.
  unfold difflib.size in *; simpl in *.
  destruct ((alo <? i) && (blo <? j)), ((i + k <? ahi) && (j + k <? bhi));
    simpl in *; lia.
Qed.

Lemma blocks_loop_ends steps : ∀ queue blocks,
  Forall well_formed queue → steps_needed queue ≤ steps →
  (difflib.blocks_loop self steps queue blocks).1 = [].
Proof.
  induction steps as [|steps IH]; intros queue blocks Hq Hsteps; simpl.
  { destruct queue as [|r queue]; simpl in *; [done|lia]. }
  destruct queue as [|[[[alo ahi] blo] bhi] queue]; simpl in *; [done|].
  apply Forall_cons in Hq as [[Ha Hb] Hq]; simpl in Ha, Hb.
  pose proof (find_longest_match_inside self alo ahi blo bhi Ha Hb) as Hin.
  destruct (difflib.find_longest_match self alo ahi blo bhi)
    as [[i j] k]. destruct Hin as (H1 & H2 & H3 & H4); simpl in *.
  destruct (k =? 0) eqn:Ek.
  { apply IH; [done|lia]. }
  apply Nat.eqb_neq in Ek.
  apply IH.
  - destruct ((alo <? i) && (blo <? j)), ((i + k <? ahi) && (j + k <? bhi));
      repeat (apply Forall_cons; split); try done;
      unfold well_formed; simpl; lia.
  - destruct ((alo <? i) && (blo <? j)) eqn:E1,
      ((i + k <? ahi) && (j + k <? bhi)) eqn:E2; simpl; try lia.
Qed.
End blocks_loop_facts.

Lemma total_size_insert x l :
  total_size (difflib.insert_block x l) = difflib.size x + total_size l.
Proof.
  induction l as [|y l IH]; simpl; [done|].
  destruct (difflib.block_le x y); simpl; [done|]. rewrite IH. lia.
Qed.

Lemma total_size_sort l : total_size (difflib.sort_blocks l) = total_size l.
Proof.
  induction l as [|x l IH]; simpl; [done|].
  by rewrite total_size_insert, IH.
Qed.

Lemma total_size_collapse l : ∀ cur,
  total_size (difflib.collapse cur l) = difflib.size cur + total_size l.
Proof.
  induction l as [|[[i2 j2] k2] l IH]; intros [[i1 j1] k1]; simpl.
  - destruct (k1 =? 0) eqn:E; simpl; [apply Nat.eqb_eq in E|];
      unfold difflib.size; simpl; lia.
  - destruct (_ && _).
    + rewrite IH. unfold difflib.size; simpl; lia.
    + rewrite total_size_app, IH.
      destruct (k1 =? 0) eqn:E; simpl; [apply Nat.eqb_eq in E|];
        unfold difflib.size; simpl; lia.
Qed.

(** The number of matched characters is the total size of the blocks the
    loop collects. *)
Lemma matched_loop self :
  difflib.matched self =
  total_size
    (difflib.blocks_loop self (difflib.steps_for self)
       [(0, length (difflib.a self), 0, length (difflib.b self))] []).2.
Proof.
  unfold difflib.matched, difflib.get_matching_blocks.
  change (foldr _ 0 ?l) with (total_size l).
  rewrite total_size_app, total_size_collapse, total_size_sort.
  unfold difflib.size; simpl. lia.
Qed.

Lemma get_matching_blocks_ends self :
  (difflib.blocks_loop self (difflib.steps_for self)
     [(0, length (difflib.a self), 0, length (difflib.b self))] []).1 = [].
Proof.
  apply blocks_loop_ends.
  - repeat constructor; simpl; lia.
  - unfold difflib.steps_for. simpl. lia.
Qed.

Lemma matched_fits self :
  difflib.matched self ≤ length (difflib.a self)
  ∧ difflib.matched self ≤ length (difflib.b self).
Proof.
  rewrite matched_loop.
  match goal with |- context [difflib.blocks_loop _ ?st ?q ?bl] =>
    destruct (blocks_loop_fits self st q bl) as [Ha Hb] end.
  - repeat constructor; simpl; lia.
  - simpl in *. lia.
Qed.

Lemma frac_range n d : n ≤ d → (0 <= difflib.frac n d <= 1)%Q.
Proof.
  intros H. unfold difflib.frac, Qle; simpl. split; [lia|].
  destruct d as [|d]; [simpl; lia|].
  rewrite Z.mul_1_r, Z.mul_1_l.
  rewrite <- Pos.of_nat_succ, Zpos_P_of_succ_nat. lia.
Qed.

Lemma ratio_range self : (0 <= difflib.ratio self <= 1)%Q.
Proof.
  unfold difflib.ratio, difflib._calculate_ratio.
  destruct (_ =? 0); [split; discriminate|].
  apply frac_range. destruct (matched_fits self). lia.
Qed.

(** ** max, the substring test and the signals *)

Lemma pymax_ge_l x y : (x <= pymax x y)%Q.
Proof.
  unfold pymax. destruct (Qle_bool y x) eqn:E; [apply Qle_refl|].
  apply Qlt_le_weak, Qnot_le_lt. intros H. apply Qle_bool_iff in H. congruence.
Qed.

Lemma pymax_ge_r x y : (y <= pymax x y)%Q.
Proof.
  unfold pymax. destruct (Qle_bool y x) eqn:E; [|apply Qle_refl].
  by apply Qle_bool_iff.
Qed.

Lemma pymax_range x y :
  (0 <= x <= 1)%Q → (0 <= y <= 1)%Q → (0 <= pymax x y <= 1)%Q.
Proof. intros Hx Hy. unfold pymax. by destruct (Qle_bool y x). Qed.

Lemma pymax_one y : (y <= 1)%Q → pymax 1 y = 1%Q.
Proof. intros H. unfold pymax. apply Qle_bool_iff in H. by rewrite H. Qed.

Lemma startswith_spec s p : startswith s p = true ↔ ∃ post, s = p ++ post.
Proof.
  revert s. induction p as [|x p IH]; intros s; simpl.
  - split; [intros _; by exists s|done].
  - destruct s as [|c s]; [split; [done|by intros [? ?]]|].
    rewrite andb_true_iff, IH. split.
    + intros [Hx [post ->]].
      apply Ascii.eqb_eq in Hx as ->. eauto.
    + intros [post [= -> ->]]. split; [apply Ascii.eqb_refl|eauto].
Qed.

Lemma str_in_spec p s : str_in p s = true ↔ substring p s.
Proof.
  unfold substring. induction s as [|c s IH]; simpl.
  - rewrite orb_false_r, startswith_spec. split.
    + intros [post H]. by exists [], post.
    + intros (pre & post & H). symmetry in H.
      apply app_eq_nil in H as [-> [-> ->]%app_eq_nil]. by exists [].
  - rewrite orb_true_iff, startswith_spec, IH. split.
    + intros [[post H]|(pre & post & H)].
      * by exists [], post.
      * exists (c :: pre), post. by rewrite H.
    + intros (pre & post & H). destruct pre as [|c' pre]; simpl in H.
      * left. eauto.
      * right. injection H as _ H. eauto.
Qed.

Arguments str_in : simpl never.

(** Unfolds the record of signals down to its fields. *)
Ltac open_signals :=
  unfold signals in *;
  cbn [exact_match similarity_ratio similarity_partial contains_key_info
       similarity total_score] in *.

Section signal_facts.
Variables gold_text pred_text : text.
Local Abbreviation sg := (signals gold_text pred_text).

Lemma exact_match_range : (0 <= exact_match sg <= 1)%Q.
Proof. open_signals. by destruct (decide _). Qed.

Lemma similarity_ratio_range : (0 <= similarity_ratio sg <= 1)%Q.
Proof. apply ratio_range. Qed.

Lemma similarity_partial_range : (0 <= similarity_partial sg <= 1)%Q.
Proof.
  open_signals. destruct (_ || _); [|apply ratio_range].
  apply pymax_range; [apply ratio_range|done].
Qed.

Lemma similarity_range : (0 <= similarity sg <= 1)%Q.
Proof.
  pose proof similarity_partial_range as H. open_signals.
  destruct (_check_key_info _ _); [|exact H].
  by apply pymax_range.
Qed.

Lemma total_score_range : (0 <= total_score sg <= 1)%Q.
Proof.
  apply pymax_range; [apply exact_match_range|apply similarity_range].
Qed.

Lemma similarity_partial_ge : (similarity_ratio sg <= similarity_partial sg)%Q.
Proof.
  open_signals. destruct (_ || _); [apply pymax_ge_l|apply Qle_refl].
Qed.

Lemma similarity_ge : (similarity_partial sg <= similarity sg)%Q.
Proof.
  open_signals.
  destruct (_check_key_info _ _); [apply pymax_ge_l|apply Qle_refl].
Qed.

Lemma total_score_ge : (similarity sg <= total_score sg)%Q.
Proof. apply pymax_ge_r. Qed.
End signal_facts.

Lemma total_score_same x : total_score (signals x x) = 1%Q.
Proof.
  pose proof (similarity_range x x) as [_ H]. open_signals.
  destruct (decide _) as [_|Hne]; [|done].
  by apply pymax_one.
Qed.

Lemma exact_match_same x : exact_match (signals x x) = 1%Q.
Proof. open_signals. by destruct (decide _). Qed.

Lemma is_empty_false (s : text) : s ≠ [] → is_empty s = false.
Proof. by destruct s. Qed.

Lemma normalize_nil : lower (_normalize_text []) = [].
Proof. reflexivity. Qed.

Arguments signals : simpl never.

Lemma score_body_texts self gold pred trace gold_text pred_text :
  _extract_text self gold = inr gold_text →
  _extract_text self pred = inr pred_text →
  gold_text ≠ [] → pred_text ≠ [] →
  score_body self gold pred trace =
  inr (if trace
       then Detailed
              (<["exact_match"%string := exact_match (signals gold_text pred_text)]>
                 (<["similarity"%string := similarity (signals gold_text pred_text)]>
                    (<["contains_key_info"%string :=
                         float_of_bool
                           (contains_key_info (signals gold_text pred_text))]>
                       (<["total"%string :=
                            total_score (signals gold_text pred_text)]> ∅))))
       else Scalar (total_score (signals gold_text pred_text))).
Proof.
  intros Hg Hp Hg0 Hp0. unfold score_body. rewrite Hg, Hp. cbn [bind].
  by rewrite (is_empty_false _ Hg0), (is_empty_false _ Hp0).
Qed.

Lemma call_texts self gold pred trace gold_text pred_text :
  _extract_text self gold = inr gold_text →
  _extract_text self pred = inr pred_text →
  gold_text ≠ [] → pred_text ≠ [] →
  ∃ r, __call__ self gold pred trace = ([], inr r)
       ∧ total_of r = Some (total_score (signals gold_text pred_text)).
Proof.
  intros Hg Hp Hg0 Hp0. unfold __call__, try_except.
  rewrite (score_body_texts _ _ _ _ _ _ Hg Hp Hg0 Hp0).
  eexists. split; [reflexivity|]. by destruct trace.
Qed.

(** ** _check_key_info *)

Lemma frac_div n d :
  0 < d →
  (difflib.frac n d == inject_Z (Z.of_nat n) / inject_Z (Z.of_nat d))%Q.
Proof.
  intros Hd. unfold difflib.frac.
  destruct d as [|d]; [lia|].
  replace (Z.of_nat (S d)) with (Z.pos (Pos.of_nat (S d))).
  - apply Qmake_Qdiv.
  - rewrite <- Pos.of_nat_succ, Zpos_P_of_succ_nat. lia.
Qed.

Lemma overlap_without_stop_words (gold_words pred_words : gset text) :
  (gold_words ∖ stop_words) ∩ (pred_words ∖ stop_words)
  = (gold_words ∖ stop_words) ∩ pred_words.
Proof.
  apply set_eq. intros x.
  rewrite !elem_of_intersection, !elem_of_difference. tauto.
Qed.

Lemma check_key_info_spec gold pred :
  _check_key_info gold pred = true ↔
  word_set gold ∖ stop_words ≠ ∅
  ∧ (1 # 2 <=
       inject_Z (Z.of_nat (size ((word_set gold ∖ stop_words) ∩ word_set pred)))
       / inject_Z (Z.of_nat (size (word_set gold ∖ stop_words))))%Q.
Proof.
  unfold _check_key_info. rewrite overlap_without_stop_words.
  destruct (size (word_set gold ∖ stop_words) =? 0) eqn:E.
  - apply Nat.eqb_eq, size_empty_iff in E. split; [done|].
    intros [H _]. destruct H. by apply leibniz_equiv.
  - apply Nat.eqb_neq in E. rewrite Qle_bool_iff, frac_div by lia.
    split; [|by intros [_ ?]]. intros H. split; [|done].
    intros H0. rewrite H0 in E. by rewrite size_empty in E.
Qed.

(** ** The claims on the score *)

(** C1, as the code has it: for every text [x] that is not empty or white
    space only, scoring [x] against itself gives [exact_match = 1.0] and
    [total = 1.0] in detailed mode, and [1.0] in scalar mode. *)
Theorem score_of_same_text :
  ∀ (self : WorkingRAGMetric) (x : text),
    strip x ≠ [] →
    (∃ d, __call__ self (VStr x) (VStr x) true = ([], inr (Detailed d))
          ∧ d !! "exact_match"%string = Some 1%Q
          ∧ d !! "total"%string = Some 1%Q)
    ∧ __call__ self (VStr x) (VStr x) false = ([], inr (Scalar 1)).
Proof.
  intros self x Hx. unfold __call__, try_except.
  rewrite !(score_body_texts self (VStr x) (VStr x) _ (strip x) (strip x))
    by done.
  rewrite total_score_same, exact_match_same. split; [|done].
  eexists. split; [reflexivity|]. split; reflexivity.
Qed.

Lemma score_of_same_text_witness :
  __call__ default_metric (VStr (txt "Paris")) (VStr (txt "Paris")) false
  = ([], inr (Scalar 1)).
Proof.
  apply (score_of_same_text default_metric (txt "Paris")). discriminate.
Defined.

(** C1 as stated fails on the empty text: the scores are zero. *)
Lemma score_of_empty_text_is_zero :
  ¬ ∃ printed d e x,
      __call__ default_metric (VStr (txt "")) (VStr (txt "")) true
      = (printed, inr (Detailed d))
      ∧ d !! "exact_match"%string = Some e ∧ d !! "total"%string = Some x
      ∧ (e == 1)%Q ∧ (x == 1)%Q.
Proof.
  intros (printed & d & e & x & Hcall & He & Hx & He1 & Hx1).
  vm_compute in Hcall. injection Hcall as <- <-.
  vm_compute in Hx. injection Hx as <-. discriminate Hx1.
Qed.

(** C2: whatever the two inputs and the mode, the scalar that the call
    returns, or the entry [total] of the detailed result, lies between 0
    and 1; and the call does return, unless it raises to its caller an
    exception that its handler does not report. *)
Theorem total_in_unit_interval :
  ∀ (self : WorkingRAGMetric) (gold pred : PyVal) (trace : bool),
    (∃ printed r x,
       __call__ self gold pred trace = (printed, inr r)
       ∧ total_of r = Some x ∧ (0 <= x <= 1)%Q)
    ∨ propagates self gold pred trace.
Proof.
  intros self gold pred trace.
  assert (∀ e, score_body self gold pred trace = inl e →
    (∃ printed r x,
       __call__ self gold pred trace = (printed, inr r)
       ∧ total_of r = Some x ∧ (0 <= x <= 1)%Q)
    ∨ propagates self gold pred trace) as Hfault.
  { intros e Hb. destruct e as [msg|raised|msg];
      [|right; by apply (call_propagates _ _ _ _ _ Hb)..].
    left. rewrite (call_handles _ _ _ _ _ Hb).
    eexists _, _, 0%Q. split; [reflexivity|]. by destruct trace. }
  destruct (_extract_text self gold) as [e|g] eqn:Hg.
  { apply (Hfault e), score_body_fault. by left. }
  destruct (_extract_text self pred) as [e|p] eqn:Hp.
  { apply (Hfault e), score_body_fault. right. by rewrite Hg. }
  left. destruct (is_empty g || is_empty p) eqn:E.
  { unfold __call__, try_except, score_body. rewrite Hg, Hp. cbn [bind].
    rewrite E. eexists _, _, 0%Q. split; [reflexivity|]. by destruct trace. }
  apply orb_false_elim in E as [Eg Ep].
  destruct (call_texts self gold pred trace g p Hg Hp) as (r & Hr & Ht).
  { by destruct g. } { by destruct p. }
  exists [], r, (total_score (signals g p)).
  split; [done|]. split; [done|]. apply total_score_range.
Qed.

(** C5: when the two extracted texts normalise and lower-case to
    non-empty texts one of which occurs inside the other, the total is at
    least 0.7 in either mode; and the bonus for partial matches never
    lowers the similarity. *)
Theorem substring_bonus :
  ∀ (self : WorkingRAGMetric) (gold pred : PyVal) (gold_text pred_text : text),
    _extract_text self gold = inr gold_text →
    _extract_text self pred = inr pred_text →
    lower (_normalize_text gold_text) ≠ [] →
    lower (_normalize_text pred_text) ≠ [] →
    substring (lower (_normalize_text gold_text))
              (lower (_normalize_text pred_text))
    ∨ substring (lower (_normalize_text pred_text))
                (lower (_normalize_text gold_text)) →
    (∀ trace, ∃ r x,
        __call__ self gold pred trace = ([], inr r)
        ∧ total_of r = Some x ∧ (7 # 10 <= x)%Q)
    ∧ (similarity_ratio (signals gold_text pred_text)
       <= similarity_partial (signals gold_text pred_text))%Q.
Proof.
  intros self gold pred g p Hg Hp Hg0 Hp0 Hsub.
  split; [|apply similarity_partial_ge].
  intros trace.
  destruct (call_texts self gold pred trace g p Hg Hp) as (r & Hr & Ht).
  { intros ->. by apply Hg0. } { intros ->. by apply Hp0. }
  exists r, (total_score (signals g p)). split; [done|]. split; [done|].
  eapply Qle_trans; [|apply total_score_ge].
  eapply Qle_trans; [|apply similarity_ge].
  open_signals.
  replace (str_in _ _ || str_in _ _) with true; [apply pymax_ge_r|].
  symmetry. apply orb_true_iff.
  destruct Hsub as [H|H]; [left|right]; by apply str_in_spec.
Qed.

Lemma substring_bonus_witness :
  ∃ r x,
    __call__ default_metric (VStr (txt "Paris"))
      (VStr (txt "It is Paris, of course")) false = ([], inr r)
    ∧ total_of r = Some x ∧ (7 # 10 <= x)%Q.
Proof.
  refine (proj1 (substring_bonus default_metric (VStr (txt "Paris"))
            (VStr (txt "It is Paris, of course"))
            (txt "Paris") (txt "It is Paris, of course")
            eq_refl eq_refl _ _ _) false).
  - discriminate.
  - discriminate.
  - left. by exists (txt "it is "), (txt " of course").
Defined.

(** C6: the key-information signal holds exactly when the lower-cased
    words of the gold text, the stop words removed, form a non-empty set
    at least half of which occurs among the words of the prediction; the
    signal of a call is that of the two normalised texts, and when it
    holds, the similarity that enters the total is at least 0.8 and never
    below the similarity before this bonus. *)
Theorem key_info_bonus :
  (∀ (gold pred : text),
     _check_key_info gold pred = true ↔
     word_set gold ∖ stop_words ≠ ∅
     ∧ (1 # 2 <=
          inject_Z (Z.of_nat
            (size ((word_set gold ∖ stop_words) ∩ word_set pred)))
          / inject_Z (Z.of_nat (size (word_set gold ∖ stop_words))))%Q)
  ∧ ∀ (gold_text pred_text : text),
      contains_key_info (signals gold_text pred_text)
      = _check_key_info (_normalize_text gold_text) (_normalize_text pred_text)
      ∧ (contains_key_info (signals gold_text pred_text) = true →
         (8 # 10 <= similarity (signals gold_text pred_text))%Q)
      ∧ (similarity_partial (signals gold_text pred_text)
         <= similarity (signals gold_text pred_text))%Q
      ∧ total_score (signals gold_text pred_text)
        = pymax (exact_match (signals gold_text pred_text))
            (similarity (signals gold_text pred_text)).
Proof.
  split; [apply check_key_info_spec|].
  intros g p. split; [reflexivity|]. split; [|split].
  - open_signals. intros ->. apply pymax_ge_r.
  - apply similarity_ge.
  - reflexivity.
Qed.

Lemma key_info_bonus_witness :
  (8 # 10 <=
   similarity (signals (txt "cats and dogs are pets") (txt "dogs cats pets")))%Q.
Proof.
  apply (proj2 key_info_bonus
           (txt "cats and dogs are pets") (txt "dogs cats pets")).
  vm_compute. reflexivity.
Defined.

(** ** _normalize_text: what the three substitutions leave *)

Lemma article_letter_word c x :
  x ∈ ["t"; "h"; "e"; "a"; "n"]%char → lower_char c = x → isword c = true.
Proof.
  intros Hx <-. revert Hx. rewrite !elem_of_cons, elem_of_nil.
  each_char c; intros H; decompose [or] H; try discriminate; done.
Qed.

Lemma article_letters w :
  lower w ∈ re.articles → w ≠ [] ∧ Forall (λ c, isword c = true) w.
Proof.
  assert (∀ x, x ∈ [txt "the"; txt "a"; txt "an"] →
               Forall (λ c, c ∈ ["t"; "h"; "e"; "a"; "n"]%char) x) as Hlit.
  { intros x. rewrite !elem_of_cons, elem_of_nil.
    intros [->|[->|[->|[]]]]; repeat constructor; set_solver. }
  intros Hw. split.
  - intros ->. revert Hw. unfold re.articles.
    rewrite !elem_of_cons, elem_of_nil. by intros [H|[H|[H|[]]]].
  - apply Hlit in Hw. unfold lower in Hw. rewrite Forall_map in Hw.
    eapply Forall_impl; [exact Hw|]. simpl. intros c Hc.
    by eapply article_letter_word.
Qed.

Lemma prev_of_snoc prev pre c : prev_of prev (pre ++ [c]) = Some c.
Proof. unfold prev_of. by rewrite last_snoc. Qed.

Lemma prev_of_cons prev c pre : prev_of prev (c :: pre) = prev_of (Some c) pre.
Proof.
  unfold prev_of. destruct pre as [|d pre] using rev_ind; [done|].
  change (c :: pre ++ [d]) with ((c :: pre) ++ [d]). by rewrite !last_snoc.
Qed.

Lemma wordopt_prev_of_word prev w :
  w ≠ [] → Forall (λ c, isword c = true) w → re.wordopt (prev_of prev w) = true.
Proof.
  intros Hw Hall. destruct w as [|d w _] using rev_ind; [done|].
  rewrite prev_of_snoc. apply Forall_app in Hall as [_ Hd].
  apply Forall_inv in Hd. exact Hd.
Qed.

Lemma literal_spec wl : ∀ prev s lastc rest,
  re.literal wl prev s = Some (lastc, rest) ↔
  ∃ w, s = w ++ rest ∧ lower w = wl ∧ lastc = prev_of prev w.
Proof.
  induction wl as [|x wl IH]; intros prev s lastc rest; simpl.
  - split.
    + intros [= <- <-]. by exists [].
    + intros (w & -> & Hw & ->). by destruct w.
  - destruct s as [|c s].
    + split; [done|]. intros (w & Hs & Hw & _). by destruct w.
    + destruct (Ascii.eqb_spec (lower_char c) x) as [<-|Hne].
      * rewrite IH. split.
        -- intros (w & -> & <- & ->). exists (c :: w).
           by rewrite prev_of_cons.
        -- intros (w & Hs & Hw & ->). destruct w as [|c' w]; [done|].
           injection Hs as <- ->. injection Hw as Hw.
           exists w. by rewrite prev_of_cons.
      * split; [done|]. intros (w & Hs & Hw & _).
        destruct w as [|c' w]; [done|].
        injection Hs as <- ->. by injection Hw as Hw _.
Qed.

(** What a match of the pattern at the head of [s] means. *)
Lemma alternatives_sound ws : ∀ prev s n,
  Forall (λ wl, wl ∈ re.articles) ws →
  re.boundary prev s = true → re.alternatives ws prev s = Some n →
  1 ≤ n ∧ word_run n s ∧ re.wordopt prev = false.
Proof.
  induction ws as [|wl ws IH]; intros prev s n Hws Hb; simpl; [done|].
  apply Forall_cons in Hws as [Hwl Hws].
  destruct (re.literal wl prev s) as [[lastc rest]|] eqn:E; [|by apply IH].
  destruct (re.boundary lastc rest) eqn:Eb; [|by apply IH].
  intros [= <-]. apply literal_spec in E as (w & -> & <- & ->).
  destruct (article_letters w Hwl) as [Hne Hall].
  unfold re.boundary in *.
  rewrite wordopt_prev_of_word in Eb by done.
  destruct w as [|c w]; [done|]. simpl in Hb.
  apply Forall_cons in Hall as Hc. destruct Hc as [Hc _]. rewrite Hc in Hb.
  split; [unfold lower; rewrite length_map; simpl; lia|]. split.
  - exists (c :: w), rest. unfold lower. rewrite length_map.
    repeat split; try done. by destruct (re.wordopt (head rest)).
  - by destruct (re.wordopt prev).
Qed.

Lemma match_article_sound prev s n :
  re.match_article prev s = Some n →
  1 ≤ n ∧ word_run n s ∧ re.wordopt prev = false.
Proof.
  unfold re.match_article. destruct (re.boundary prev s) eqn:Hb; [|done].
  apply alternatives_sound; [|done].
  apply Forall_forall. auto.
Qed.

Lemma alternatives_complete ws : ∀ prev s wl lastc rest,
  wl ∈ ws → re.literal wl prev s = Some (lastc, rest) →
  re.boundary lastc rest = true →
  ∃ n, re.alternatives ws prev s = Some n.
Proof.
  induction ws as [|wl' ws IH]; intros prev s wl lastc rest Hin Hlit Hb.
  - by apply elem_of_nil in Hin.
  - simpl. destruct (re.literal wl' prev s) as [[l' r']|] eqn:E.
    + destruct (re.boundary l' r') eqn:Eb; [eauto|].
      apply elem_of_cons in Hin as [->|Hin]; [congruence|]. by eapply IH.
    + apply elem_of_cons in Hin as [->|Hin]; [congruence|]. by eapply IH.
Qed.

Lemma match_article_complete prev s :
  article_at prev s → ∃ n, re.match_article prev s = Some n.
Proof.
  intros (Hprev & w & post & -> & Hw & Hpost).
  destruct (article_letters w Hw) as [Hne Hall].
  unfold re.match_article.
  replace (re.boundary prev (w ++ post)) with true.
  - apply (alternatives_complete _ _ _ (lower w) (prev_of prev w) post);
      [done| |].
    + apply literal_spec. by exists w.
    + unfold re.boundary. rewrite wordopt_prev_of_word, Hpost; done.
  - unfold re.boundary. rewrite Hprev. destruct w as [|c w]; [done|].
    simpl. apply Forall_cons in Hall as [Hc _]. by rewrite Hc.
Qed.

(** No match can start at a character that is not a word character, nor
    right after a word character. *)
Lemma match_article_nonword prev c r :
  isword c = false → re.match_article prev (c :: r) = None.
Proof.
  intros Hc. destruct (re.match_article prev (c :: r)) as [n|] eqn:E; [|done].
  apply match_article_sound in E as (Hn & (w & post & Hs & Hlen & Hall & _) & _).
  destruct w as [|c' w]; [simpl in Hlen; lia|].
  injection Hs as <- _. apply Forall_cons in Hall as [Hc' _]. congruence.
Qed.

Lemma match_article_inside prev s :
  re.wordopt prev = true → re.match_article prev s = None.
Proof.
  intros Hp. destruct (re.match_article prev s) as [n|] eqn:E; [|done].
  apply match_article_sound in E as (_ & _ & H). congruence.
Qed.

Lemma sub_articles_step prev c r :
  re.match_article prev (c :: r) = None →
  re.sub_articles 0 prev (c :: r) = c :: re.sub_articles 0 (Some c) r.
Proof. simpl. by intros ->. Qed.

(** A run of word characters that the scan enters in the middle, or at
    a character where no match starts, is copied unchanged. *)
Lemma sub_articles_keeps_run w : ∀ c0 r post,
  isword c0 = true → Forall (λ c, isword c = true) w →
  re.wordopt (head post) = false →
  re.sub_articles 0 (Some c0) r = w ++ post →
  ∃ post0, r = w ++ post0 ∧ re.wordopt (head post0) = false.
Proof.
  induction w as [|d w IH]; intros c0 r post Hc0 Hall Hpost Hout.
  - exists r. split; [done|]. destruct r as [|e r]; [done|].
    rewrite sub_articles_step in Hout by by apply match_article_inside.
    simpl in Hout. rewrite <- Hout in Hpost. exact Hpost.
  - apply Forall_cons in Hall as [Hd Hall].
    destruct r as [|e r]; [done|].
    rewrite sub_articles_step in Hout by by apply match_article_inside.
    injection Hout as -> Hout.
    destruct (IH d r post Hd Hall Hpost Hout) as (post0 & -> & Hp0).
    by exists post0.
Qed.

Lemma no_article_from_nil prev : no_article_from prev [].
Proof.
  intros pre rest H. symmetry in H. apply app_eq_nil in H as [-> ->].
  intros (_ & w & post & Hs & Hw & _).
  symmetry in Hs. apply app_eq_nil in Hs as [-> _].
  by apply article_letters in Hw as [? _].
Qed.

Lemma no_article_from_cons prev c out :
  ¬ article_at prev (c :: out) → no_article_from (Some c) out →
  no_article_from prev (c :: out).
Proof.
  intros Hhead Htail pre rest Hs. destruct pre as [|c' pre]; simpl in Hs.
  - by subst rest.
  - injection Hs as -> ->. rewrite prev_of_cons. by apply Htail.
Qed.

Lemma word_run_tail n c r : word_run (S n) (c :: r) → word_run n r.
Proof.
  intros (w & post & Hs & Hlen & Hall & Hpost).
  destruct w as [|c' w]; [done|]. injection Hs as _ ->.
  apply Forall_cons in Hall as [_ Hall].
  exists w, post. simpl in Hlen. repeat split; try done. lia.
Qed.

Lemma word_run_zero c r : word_run 0 (c :: r) → isword c = false.
Proof.
  intros (w & post & Hs & Hlen & _ & Hpost).
  destruct w; [|done]. simpl in Hs. by subst post.
Qed.

Lemma article_at_head_word prev c out :
  article_at prev (c :: out) → isword c = true.
Proof.
  intros (_ & w & post & Hs & Hw & _).
  apply article_letters in Hw as [Hne Hall].
  destruct w as [|c' w]; [done|]. injection Hs as -> _.
  by apply Forall_cons in Hall as [? _].
Qed.

(** The scan leaves no article standing alone.  [prev_in] is the
    character before the head of [s] in the text scanned, [prev_out] the
    last character written; they differ only after a match was dropped,
    and then the scan is at the end of a run of word characters. *)
Lemma sub_articles_no_article s : ∀ skip prev_in prev_out,
  (skip = 0 ∧ re.wordopt prev_out = re.wordopt prev_in)
  ∨ (re.wordopt prev_out = false ∧ word_run skip s) →
  no_article_from prev_out (re.sub_articles skip prev_in s).
Proof.
  induction s as [|c r IH]; intros skip prev_in prev_out Hst.
  { apply no_article_from_nil. }
  destruct skip as [|k].
  - destruct Hst as [[_ Hprev]|[Hout Hrun]].
    + simpl. destruct (re.match_article prev_in (c :: r)) as [[|k]|] eqn:E.
      * apply match_article_sound in E as [? _]. lia.
      * apply match_article_sound in E as (_ & Hrun & Hin).
        apply IH. right. split; [congruence|by eapply word_run_tail].
      * apply no_article_from_cons; [|apply IH; by left].
        intros Hart. pose proof (article_at_head_word _ _ _ Hart) as Hc.
        destruct Hart as (Hpo & w & post & Hs & Hw & Hpost).
        destruct (article_letters w Hw) as [Hne Hall].
        destruct w as [|c' w]; [done|]. injection Hs as <- Hs.
        apply Forall_cons in Hall as [_ Hall].
        destruct (sub_articles_keeps_run w c r post Hc Hall Hpost Hs)
          as (post0 & -> & Hpost0).
        destruct (match_article_complete prev_in (c :: w ++ post0))
          as [n Hn]; [|congruence].
        split; [congruence|]. by exists (c :: w), post0.
    + apply word_run_zero in Hrun.
      rewrite sub_articles_step by by apply match_article_nonword.
      apply no_article_from_cons; [|apply IH; by left].
      intros Hart. apply article_at_head_word in Hart. congruence.
  - destruct Hst as [[? _]|[Hout Hrun]]; [done|].
    simpl. apply IH. right. split; [done|by eapply word_run_tail].
Qed.

Lemma standalone_article_from s :
  standalone_article s → ¬ no_article_from None s.
Proof.
  intros (pre & w & post & -> & Hw & Hpre & Hpost) Hno.
  apply (Hno pre (w ++ post) eq_refl). split.
  - unfold prev_of. by destruct (last pre).
  - by exists w, post.
Qed.

Lemma spaces_last_not_word (ws : text) :
  Forall (λ c, isspace c = true) ws → re.wordopt (last ws) = false.
Proof.
  intros H. destruct ws as [|c ws _] using rev_ind; [done|].
  rewrite last_snoc. apply Forall_app in H as [_ H].
  apply Forall_inv in H. by apply space_not_word.
Qed.

Lemma spaces_head_not_word (ws : text) :
  Forall (λ c, isspace c = true) ws → re.wordopt (head ws) = false.
Proof.
  intros H. destruct ws as [|c ws]; [done|].
  apply Forall_inv in H. by apply space_not_word.
Qed.

(** An article standing alone in the stripped text stands alone in the
    text itself. *)
Lemma standalone_article_strip s :
  standalone_article (strip s) → standalone_article s.
Proof.
  destruct (strip_split s) as (ws1 & ws2 & Hs & Hws1 & Hws2).
  intros (pre & w & post & Hstrip & Hw & Hpre & Hpost).
  exists (ws1 ++ pre), w, (post ++ ws2). split; [|split; [done|split]].
  - rewrite Hs at 1. rewrite Hstrip. by rewrite <- !app_assoc.
  - destruct pre as [|c pre _] using rev_ind.
    + rewrite app_nil_r. by apply spaces_last_not_word.
    + rewrite app_assoc, last_snoc. by rewrite last_snoc in Hpre.
  - destruct post as [|c post]; [|done]. by apply spaces_head_not_word.
Qed.

Lemma sub_spaces_plain flag s c :
  c ∈ re.sub_spaces flag s → isspace c = true → c = " "%char.
Proof.
  revert flag. induction s as [|d s IH]; intros flag; simpl.
  - by intros ?%elem_of_nil.
  - destruct (isspace d) eqn:E.
    + destruct flag; [apply IH|].
      intros [->|H]%elem_of_cons; [done|by eapply IH].
    + intros [->|H]%elem_of_cons; [congruence|by eapply IH].
Qed.

Lemma sub_articles_subset s : ∀ skip prev c,
  c ∈ re.sub_articles skip prev s → c ∈ s.
Proof.
  induction s as [|d s IH]; intros skip prev c; simpl; [done|].
  destruct skip as [|k]; [|intros H; right; by eapply IH].
  destruct (re.match_article prev (d :: s)) as [[|k]|].
  - intros [->|H]%elem_of_cons; [by left|right; by eapply IH].
  - intros H; right; by eapply IH.
  - intros [->|H]%elem_of_cons; [by left|right; by eapply IH].
Qed.

Lemma strip_subset s c : c ∈ strip s → c ∈ s.
Proof.
  destruct (strip_split s) as (ws1 & ws2 & Hs & _). intros H.
  rewrite Hs. apply elem_of_app. right. apply elem_of_app. by left.
Qed.

Lemma sub_punct_spec s c :
  c ∈ re.sub_punct s ↔ c ∈ s ∧ re.ispunct c = false.
Proof.
  unfold re.sub_punct. rewrite !list_elem_of_In, filter_In.
  by rewrite negb_true_iff.
Qed.

(** What does hold of every normalised text: no white space at either
    end, none of the eight punctuation characters, no article standing
    alone, and no white-space character other than the plain space. *)
Lemma normalize_text_holds :
  ∀ (text0 : text),
    trimmed (_normalize_text text0)
    ∧ (∀ c, c ∈ _normalize_text text0 → re.ispunct c = false)
    ∧ ¬ standalone_article (_normalize_text text0)
    ∧ (∀ c, c ∈ _normalize_text text0 → isspace c = true → c = " "%char).
Proof.
  intros text0. unfold _normalize_text.
  split; [apply strip_trimmed|]. split; [|split].
  - intros c Hc. apply strip_subset, sub_articles_subset in Hc.
    by apply sub_punct_spec in Hc as [_ ?].
  - intros Hart. apply standalone_article_strip in Hart.
    apply standalone_article_from in Hart. apply Hart.
    apply sub_articles_no_article. by left.
  - intros c Hc. apply strip_subset, sub_articles_subset in Hc.
    apply sub_punct_spec in Hc as [Hc _]. by eapply sub_spaces_plain.
Qed.

(** C4 fails on the code: white space is collapsed before the articles
    are dropped, so the article of [I saw a cat] leaves two spaces side by
    side, and the text no longer matches [I saw cat] exactly. *)
Theorem normalize_text_leaves_space_run :
  _normalize_text (txt "I saw a cat") = txt "I saw  cat"
  ∧ has_space_run (_normalize_text (txt "I saw a cat"))
  ∧ _normalize_text (txt "I saw cat") = txt "I saw cat"
  ∧ exact_match (signals (txt "I saw a cat") (txt "I saw cat")) = 0%Q
  ∧ _normalize_text (_normalize_text (txt "I saw a cat")) = txt "I saw cat".
Proof.
  split; [reflexivity|]. split; [|repeat split; reflexivity].
  by exists (txt "I saw"), " "%char, " "%char, (txt "cat").
Qed.

(** ** difflib against the classic ratio: the index of [b] *)

Lemma index_from_lookup s : ∀ i m x,
  default [] (difflib.index_from i s m !! x)
  = default [] (m !! x) ++ positions x i s.
Proof.
  induction s as [|y s IH]; intros i m x; simpl.
  - by rewrite app_nil_r.
  - rewrite IH. unfold difflib.setdefault_append. rewrite lookup_insert.
    destruct (Ascii.eqb_spec y x) as [->|Hne].
    + rewrite decide_True by done. simpl. by rewrite <- app_assoc.
    + by rewrite decide_False by done.
Qed.

(** Below 200 elements nothing is popular, and the index is complete. *)
Lemma chain_b_short autojunk s x :
  length s < 200 →
  default [] (difflib.chain_b autojunk s !! x) = positions x 0 s.
Proof.
  intros Hlen. unfold difflib.chain_b.
  assert (filter (λ kv : ascii * list nat,
                    difflib.popular (length s) kv.2 = false)
            (difflib.index_from 0 s ∅) = difflib.index_from 0 s ∅) as Hid.
  { apply map_filter_id. intros c idxs _. unfold difflib.popular.
    replace (200 <=? length s) with false; [done|].
    symmetry. apply Nat.leb_gt. lia. }
  destruct autojunk; rewrite ?Hid; by rewrite index_from_lookup, lookup_empty.
Qed.

Lemma chain_b_no_autojunk s x :
  default [] (difflib.chain_b false s !! x) = positions x 0 s.
Proof.
  unfold difflib.chain_b. by rewrite index_from_lookup, lookup_empty.
Qed.

(** ** difflib against the classic ratio: the longest block *)

Lemma first_longest_unique s u alo ahi blo bhi m1 m2 :
  first_longest s u alo ahi blo bhi m1 →
  first_longest s u alo ahi blo bhi m2 → m1 = m2.
Proof.
  intros (Hi1 & Hb1 & Hz1 & Hm1) (Hi2 & Hb2 & Hz2 & Hm2).
  destruct m1 as [[i1 j1] k1], m2 as [[i2 j2] k2]; simpl in *.
  destruct (decide (k1 = 0)) as [->|Hk1].
  - destruct (decide (k2 = 0)) as [->|Hk2]; [by rewrite Hz1, Hz2|].
    destruct (Hm1 (i2, j2, k2) Hi2 Hb2); simpl in *; lia.
  - pose proof (Hm2 (i1, j1, k1) Hi1 Hb1 ltac:(simpl; lia)) as H.
    simpl in H.
    pose proof (Hm1 (i2, j2, k2) Hi2 Hb2 ltac:(simpl; lia)) as H'.
    simpl in H'. f_equal; [f_equal|]; lia.
Qed.

Section longest_run.
Variables s u : text.
Variables alo ahi blo bhi : nat.

Local Abbreviation run := (run s u alo blo bhi).
Local Abbreviation best_before := (best_before s u alo blo bhi).

Lemma run_block n : ∀ j k,
  run n j = k → 1 ≤ k →
  k ≤ n ∧ k ≤ j + 1 - blo ∧ j < bhi
  ∧ ∀ d, d < k → same_at s u (alo + n - 1 - d) (j - d) = true.
Proof.
  induction n as [|n IH]; intros j k; simpl; [lia|].
  destruct (_ && _) eqn:E; [|lia].
  apply andb_prop in E as [[E1 E2]%andb_prop E3].
  apply Nat.leb_le in E1. apply Nat.ltb_lt in E2.
  destruct j as [|j].
  - intros <- _. repeat split; try lia.
    intros d Hd. reindex E3.
  - destruct (run n j) as [|k'] eqn:Ek.
    + intros <- _. repeat split; try lia. intros d Hd. reindex E3.
    + destruct (IH j (S k') Ek) as (H1 & H2 & H3 & H4); [lia|].
      intros <- _. repeat split; try lia.
      intros [|d] Hd; [reindex E3|].
      assert (d < S k') as Hd' by lia.
      pose proof (H4 d Hd') as Hs. reindex Hs.
Qed.

Lemma run_max k : ∀ n j,
  k ≤ n → k ≤ j + 1 - blo → j < bhi →
  (∀ d, d < k → same_at s u (alo + n - 1 - d) (j - d) = true) →
  k ≤ run n j.
Proof.
  induction k as [|k IH]; intros n j Hn Hj Hj' Hsame; [lia|].
  destruct n as [|n]; [lia|]. simpl.
  assert (same_at s u (alo + n) j = true) as ->.
  { assert (0 < S k) as H0 by lia. pose proof (Hsame 0 H0) as Hs. reindex Hs. }
  replace (blo <=? j) with true by (symmetry; apply Nat.leb_le; lia).
  replace (j <? bhi) with true by (symmetry; apply Nat.ltb_lt; lia).
  simpl. destruct k as [|k]; [lia|].
  destruct j as [|j]; [lia|].
  apply le_n_S, IH; try lia.
  intros d Hd. assert (S d < S (S k)) as Hd' by lia.
  pose proof (Hsame (S d) Hd') as Hs. reindex Hs.
Qed.

Lemma best_before_skip n j best :
  best_before n j best → run n j = 0 → best_before n (S j) best.
Proof.
  intros (Hmax & Hzero & Hfirst) Hrun. split; [|split; [done|]].
  - intros n' j' [H|[-> H]]; [apply Hmax; by left|].
    destruct (decide (j' = j)) as [->|]; [lia|].
    apply Hmax. right. lia.
  - intros Hk. destruct (Hfirst Hk) as (n0 & j0 & Hb & Hr & Heq & Hf).
    exists n0, j0. split; [|split; [done|split; [done|]]].
    + destruct Hb as [?|[-> ?]]; [by left|right; lia].
    + intros n' j' [H|[-> H]] Hr'; [apply Hf; [by left|done]|].
      destruct (decide (j' = j)) as [->|]; [lia|].
      apply Hf; [right; lia|done].
Qed.

Lemma best_before_row n j best :
  best_before n j best → (∀ j', j ≤ j' → run n j' = 0) →
  best_before (S n) 0 best.
Proof.
  intros (Hmax & Hzero & Hfirst) Hrest. split; [|split; [done|]].
  - intros n' j' [H|[_ H]]; [|lia].
    destruct (decide (n' = n)) as [->|]; [|apply Hmax; left; lia].
    destruct (decide (j' < j)); [apply Hmax; by right|].
    rewrite Hrest; lia.
  - intros Hk. destruct (Hfirst Hk) as (n0 & j0 & Hb & Hr & Heq & Hf).
    exists n0, j0. split; [|split; [done|split; [done|]]].
    + left. destruct Hb as [?|[-> ?]]; lia.
    + intros n' j' [H|[_ H]] Hr'; [|lia].
      destruct (decide (n' = n)) as [->|]; [|apply Hf; [left; lia|done]].
      destruct (decide (j' < j)); [apply Hf; [by right|done]|].
      rewrite Hrest in Hr'; lia.
Qed.

Lemma best_before_step n j best k :
  best_before n j best → run n j = k → 1 ≤ k →
  best_before n (S j)
    (if difflib.size best <? k then (alo + n - k, j + 1 - k, k) else best).
Proof.
  intros (Hmax & Hzero & Hfirst) Hrun Hk. unfold difflib.size.
  destruct (best.2 <? k) eqn:E.
  - apply Nat.ltb_lt in E. split; [|split; [simpl; lia|]]; simpl.
    + intros n' j' [H|[-> H]].
      * etransitivity; [apply Hmax; by left|lia].
      * destruct (decide (j' = j)) as [->|]; [lia|].
        etransitivity; [apply Hmax; right; lia|lia].
    + intros _. exists n, j. split; [right; lia|].
      split; [done|]. split; [done|].
      intros n' j' [H|[-> H]] Hr'.
      * assert (run n' j' ≤ best.2) by (apply Hmax; by left). lia.
      * destruct (decide (j' = j)) as [->|]; [lia|].
        assert (run n j' ≤ best.2) by (apply Hmax; right; lia). lia.
  - apply Nat.ltb_ge in E. split; [|split; [done|]].
    + intros n' j' [H|[-> H]]; [apply Hmax; by left|].
      destruct (decide (j' = j)) as [->|]; [lia|].
      apply Hmax. right. lia.
    + intros Hb1. destruct (Hfirst Hb1) as (n0 & j0 & Hb & Hr & Heq & Hf).
      exists n0, j0. split; [|split; [done|split; [done|]]].
      * destruct Hb as [?|[-> ?]]; [by left|right; lia].
      * intros n' j' [H|[-> H]] Hr'; [apply Hf; [by left|done]|].
        destruct (decide (j' = j)) as [->|].
        -- destruct Hb as [?|[-> ?]]; [by left|right; lia].
        -- apply Hf; [right; lia|done].
Qed.
End longest_run.

Section scan_finds_first_longest.
Variable self : difflib.SequenceMatcher.
Variables alo ahi blo bhi : nat.
Hypothesis Hindex : ∀ x,
  default [] (difflib.b2j self !! x) = positions x 0 (difflib.b self).
Hypothesis Hahi : ahi ≤ length (difflib.a self).
Hypothesis Hbhi : bhi ≤ length (difflib.b self).
Hypothesis Ha : alo ≤ ahi.
Hypothesis Hb : blo ≤ bhi.

Local Abbreviation R := (run (difflib.a self) (difflib.b self) alo blo bhi).
Local Abbreviation B :=
  (best_before (difflib.a self) (difflib.b self) alo blo bhi).

Lemma run_outside n j : bhi ≤ j ∨ j < blo → R (S n) j = 0.
Proof.
  intros H. simpl.
  destruct (blo <=? j) eqn:E1; [|done].
  destruct (j <? bhi) eqn:E2; [|done].
  apply Nat.leb_le in E1. apply Nat.ltb_lt in E2. lia.
Qed.

Lemma run_differ n j x y :
  difflib.a self !! (alo + n) = Some x → difflib.b self !! j = Some y →
  Ascii.eqb y x = false → R (S n) j = 0.
Proof.
  intros Hx Hy Hne. simpl. unfold same_at. rewrite Hx, Hy.
  rewrite Ascii.eqb_sym, Hne. by rewrite andb_false_r.
Qed.

Lemma run_same n j2len j x y :
  (∀ j', default 0 (j2len !! j') = R n j') →
  difflib.a self !! (alo + n) = Some x → difflib.b self !! j = Some y →
  Ascii.eqb y x = true → blo ≤ j → j < bhi →
  R (S n) j = difflib.j2len_get j2len j + 1.
Proof.
  intros Hj2 Hx Hy Heq H1 H2. simpl. unfold same_at.
  rewrite Hx, Hy, Ascii.eqb_sym, Heq.
  replace (blo <=? j) with true by (symmetry; by apply Nat.leb_le).
  replace (j <? bhi) with true by (symmetry; by apply Nat.ltb_lt).
  simpl. rewrite Nat.add_1_r. f_equal.
  destruct j as [|j]; simpl; [done|]. by rewrite Hj2.
Qed.

(** One row of the scan fills the next row of the table. *)
Lemma scan_row_run x n j2len :
  difflib.a self !! (alo + n) = Some x →
  (∀ j, default 0 (j2len !! j) = R n j) →
  ∀ rest j newj2len best,
    drop j (difflib.b self) = rest →
    (∀ j', j' < j → default 0 (newj2len !! j') = R (S n) j') →
    (∀ j', j ≤ j' → newj2len !! j' = None) →
    B (S n) j best →
    (∀ j', default 0
             ((difflib.scan_row blo bhi (alo + n) j2len
                 (positions x j rest) newj2len best).1 !! j')
           = R (S n) j')
    ∧ B (S (S n)) 0
        (difflib.scan_row blo bhi (alo + n) j2len
           (positions x j rest) newj2len best).2.
Proof.
  intros Hx Hj2.
  assert (∀ j (newj2len : gmap nat nat) best,
    (∀ j', j' < j → default 0 (newj2len !! j') = R (S n) j') →
    (∀ j', j ≤ j' → newj2len !! j' = None) →
    B (S n) j best → bhi ≤ j →
    (∀ j', default 0 (newj2len !! j') = R (S n) j')
    ∧ B (S (S n)) 0 best) as Hstop.
  { intros j nj best Hlt Hge Hbest Hj. split.
    - intros j'. destruct (decide (j' < j)); [by apply Hlt|].
      rewrite Hge by lia. rewrite run_outside by lia. done.
    - eapply best_before_row; [exact Hbest|].
      intros j' Hj'. apply run_outside. lia. }
  induction rest as [|y rest IH]; intros j nj best Hdrop Hlt Hge Hbest.
  { simpl. apply (Hstop j); try done.
    apply (f_equal length) in Hdrop. rewrite length_drop in Hdrop.
    simpl in Hdrop. lia. }
  assert (difflib.b self !! j = Some y) as Hy.
  { pose proof (lookup_drop (difflib.b self) j 0) as H.
    rewrite Hdrop, Nat.add_0_r in H. done. }
  assert (drop (S j) (difflib.b self) = rest) as Hdrop'.
  { by rewrite <- Nat.add_1_r, <- drop_drop, Hdrop. }
  assert (∀ nj' : gmap nat nat, R (S n) j = 0 → nj' = nj →
            (∀ j', j' < S j → default 0 (nj' !! j') = R (S n) j')) as Hlt0.
  { intros nj' H0 -> j' Hj'. destruct (decide (j' = j)) as [->|].
    - rewrite Hge by lia. by rewrite H0.
    - apply Hlt. lia. }
  assert (∀ j', S j ≤ j' → nj !! j' = None) as Hge' by (intros; apply Hge; lia).
  simpl. destruct (Ascii.eqb y x) eqn:Eyx.
  - simpl. destruct (j <? blo) eqn:E1.
    { apply Nat.ltb_lt in E1.
      assert (R (S n) j = 0) as H0 by (apply run_outside; lia).
      apply IH; [done|by apply Hlt0|done|by apply best_before_skip]. }
    destruct (bhi <=? j) eqn:E2.
    { apply Nat.leb_le in E2. by apply (Hstop j). }
    apply Nat.ltb_ge in E1. apply Nat.leb_gt in E2.
    pose proof (run_same n j2len j x y Hj2 Hx Hy Eyx E1 E2) as Hk.
    apply IH; [done| | |].
    + intros j' Hj'. rewrite lookup_insert.
      destruct (decide (j = j')) as [<-|]; [by rewrite Hk|].
      apply Hlt. lia.
    + intros j' Hj'. rewrite lookup_insert_ne by lia. apply Hge. lia.
    + replace (alo + n + 1 - (difflib.j2len_get j2len j + 1))
        with (alo + S n - (difflib.j2len_get j2len j + 1)) by lia.
      apply best_before_step; [done|done|lia].
  - assert (R (S n) j = 0) as H0 by by eapply run_differ.
    apply IH; [done|by apply Hlt0|done|by apply best_before_skip].
Qed.

Lemma scan_rows_run cnt : ∀ n j2len best,
  alo + n + cnt ≤ ahi →
  (∀ j, default 0 (j2len !! j) = R n j) → B (S n) 0 best →
  B (S (n + cnt)) 0
    (difflib.scan_rows self blo bhi (seq (alo + n) cnt) j2len best).
Proof.
  induction cnt as [|cnt IH]; intros n j2len best Hcnt Hj2 Hbest;
    cbn [seq difflib.scan_rows].
  { by rewrite Nat.add_0_r. }
  destruct (lookup_lt_is_Some_2 (difflib.a self) (alo + n)) as [x Hx];
    [lia|].
  rewrite Hx, Hindex.
  pose proof (scan_row_run x n j2len Hx Hj2 (difflib.b self) 0 ∅ best)
    as Hrow.
  destruct (difflib.scan_row blo bhi (alo + n) j2len
              (positions x 0 (difflib.b self)) ∅ best)
    as [newj2len best'].
  destruct Hrow as [Hnew Hbest']; try done; [lia|].
  replace (n + S cnt) with (S n + cnt) by lia.
  replace (S (alo + n)) with (alo + S n) by lia.
  apply IH; [lia|done|done].
Qed.

Lemma scan_first_longest best :
  B (S (ahi - alo)) 0 best →
  first_longest (difflib.a self) (difflib.b self) alo ahi blo bhi best.
Proof.
  intros (Hmax & Hzero & Hfirst).
  assert (∀ m', inside alo ahi blo bhi m' →
                block (difflib.a self) (difflib.b self) m' → 1 ≤ m'.2 →
                m'.2 ≤ R (m'.1.1 + m'.2 - alo) (m'.1.2 + m'.2 - 1)
                ∧ R (m'.1.1 + m'.2 - alo) (m'.1.2 + m'.2 - 1) ≤ best.2)
    as Hcell.
  { intros [[i' j'] k'] (H1 & H2 & H3 & H4) Hblock Hk'; simpl in *.
    split.
    - apply run_max; try lia. intros d Hd.
      assert (k' - 1 - d < k') as Hd' by lia.
      pose proof (Hblock _ Hd') as Hs. simpl in Hs. reindex Hs.
    - apply Hmax. left. lia. }
  destruct best as [[i j] k]; simpl in *.
  destruct (decide (k = 0)) as [->|Hk].
  - injection (Hzero eq_refl) as -> ->.
    split; [unfold inside; simpl; lia|]. split; [intros d Hd; simpl in *; lia|].
    split; [done|]. intros m' Hin Hbl Hk'.
    destruct (Hcell m' Hin Hbl Hk'). lia.
  - destruct Hfirst as (n0 & j0 & Hbef & Hrun & Heq & Hf); [lia|].
    injection Heq as -> ->.
    destruct (run_block _ _ _ _ _ _ _ _ Hrun) as (H1 & H2 & H3 & H4); [lia|].
    assert (n0 ≤ ahi - alo) by (destruct Hbef; lia).
    split. { unfold inside; simpl. clear - H1 H2 H3 H Ha Hb Hk. lia. }
    split; [|split; [simpl; intros; exfalso; by apply Hk|]].
    + intros d Hd; simpl in *.
      assert (k - 1 - d < k) as Hd' by lia.
      pose proof (H4 _ Hd') as Hs. reindex Hs.
    + intros m' Hin Hbl Hk'. destruct (Hcell m' Hin Hbl Hk') as [Hlo Hhi].
      destruct m' as [[i' j'] k']; simpl in *.
      destruct Hin as (Hi1 & Hi2 & Hi3 & Hi4); simpl in *.
      destruct (decide (k' < k)); [by left|right].
      assert (k' = k) as -> by lia. split; [done|].
      assert (R (i' + k - alo) (j' + k - 1) = k) as Hr
        by (apply Nat.le_antisymm; [exact Hhi|exact Hlo]).
      destruct (Hf (i' + k - alo) (j' + k - 1) ltac:(left; lia) Hr)
        as [?|[? ?]]; [left; lia|].
      right. split; lia.
Qed.

Lemma junk_at_false j : difflib.junk_at self j = false.
Proof. unfold difflib.junk_at. by destruct (_ !! _). Qed.

(** A longest block cannot be extended: the four loops leave it. *)
Lemma extend_left_first_longest junk room best :
  first_longest (difflib.a self) (difflib.b self) alo ahi blo bhi best →
  difflib.extend_left self alo blo junk room best = best.
Proof.
  intros (Hin & Hbl & _ & Hmax).
  destruct room as [|room], best as [[i j] k]; simpl; [done|].
  rewrite junk_at_false. destruct (_ && _) eqn:E; [|done].
  apply andb_prop in E as [[[E1 E2]%andb_prop E3]%andb_prop E4].
  apply Nat.ltb_lt in E1, E2. destruct Hin as (H1 & H2 & H3 & H4).
  simpl in *.
  destruct (Hmax (i - 1, j - 1, k + 1)) as [?|[? _]]; simpl in *; try lia.
  - unfold inside; simpl; lia.
  - intros [|d] Hd; simpl in *.
    + unfold difflib.same in E4. reindex E4.
    + assert (d < k) as Hd' by lia. pose proof (Hbl d Hd') as Hs.
      simpl in Hs. reindex Hs.
Qed.

Lemma extend_right_first_longest junk room best :
  first_longest (difflib.a self) (difflib.b self) alo ahi blo bhi best →
  difflib.extend_right self ahi bhi junk room best = best.
Proof.
  intros (Hin & Hbl & _ & Hmax).
  destruct room as [|room], best as [[i j] k]; simpl; [done|].
  rewrite junk_at_false. destruct (_ && _) eqn:E; [|done].
  apply andb_prop in E as [[[E1 E2]%andb_prop E3]%andb_prop E4].
  apply Nat.ltb_lt in E1, E2. destruct Hin as (H1 & H2 & H3 & H4).
  simpl in *.
  destruct (Hmax (i, j, k + 1)) as [?|[? _]]; simpl in *; try lia.
  - unfold inside; simpl; lia.
  - intros d Hd; simpl in *. destruct (decide (d = k)) as [->|].
    + exact E4.
    + apply (Hbl d). simpl. lia.
Qed.

Lemma find_longest_match_first_longest :
  first_longest (difflib.a self) (difflib.b self) alo ahi blo bhi
    (difflib.find_longest_match self alo ahi blo bhi).
Proof.
  assert (first_longest (difflib.a self) (difflib.b self) alo ahi blo bhi
            (difflib.scan_rows self blo bhi (seq alo (ahi - alo)) ∅
               (alo, blo, 0))) as Hscan.
  { apply scan_first_longest.
    pose proof (scan_rows_run (ahi - alo) 0 ∅ (alo, blo, 0)) as H.
    rewrite Nat.add_0_r in H. apply H; [lia|done|].
    split; [|split; [done|simpl; lia]].
    intros n' j' [H'|[_ H']]; [|lia].
    assert (n' = 0) as -> by lia. done. }
  unfold difflib.find_longest_match.
  rewrite (extend_left_first_longest false _ _ Hscan).
  rewrite (extend_right_first_longest false _ _ Hscan).
  rewrite (extend_left_first_longest true _ _ Hscan).
  by rewrite (extend_right_first_longest true _ _ Hscan).
Qed.
End scan_finds_first_longest.

(** ** The classic search finds the same block *)

Lemma same_at_drop s u i j d :
  same_at (drop i s) (drop j u) d d = same_at s u (i + d) (j + d).
Proof. unfold same_at. by rewrite !lookup_drop. Qed.

Lemma common_prefix_block s : ∀ u d,
  d < classic.common_prefix s u → same_at s u d d = true.
Proof.
  induction s as [|x s IH]; intros [|y u] d; simpl; try lia.
  destruct (Ascii.eqb x y) eqn:E; [|lia].
  destruct d as [|d]; [done|]. intros Hd. apply (IH u d). lia.
Qed.

Lemma common_prefix_max k : ∀ s u,
  (∀ d, d < k → same_at s u d d = true) → k ≤ classic.common_prefix s u.
Proof.
  induction k as [|k IH]; intros s u H; [lia|].
  assert (0 < S k) as H0 by lia. pose proof (H 0 H0) as Hhead.
  destruct s as [|x s], u as [|y u]; try done.
  unfold same_at in Hhead. simpl in *. rewrite Hhead.
  apply le_n_S, IH. intros d Hd. apply (H (S d)). lia.
Qed.

Lemma block_fits s u i j k :
  block s u (i, j, k) → 1 ≤ k → i + k ≤ length s ∧ j + k ≤ length u.
Proof.
  intros Hbl Hk. assert (k - 1 < k) as Hd by lia.
  pose proof (Hbl _ Hd) as Hs. unfold same_at in Hs. simpl in Hs.
  destruct (s !! (i + (k - 1))) as [x|] eqn:Ex; [|done].
  destruct (u !! (j + (k - 1))) as [y|] eqn:Ey; [|done].
  apply lookup_lt_Some in Ex, Ey. lia.
Qed.

Section classic_search.
Variables s u : text.

Local Abbreviation tried_before := (tried_before s u).

Lemma tried_before_row i j best :
  length u ≤ j → tried_before i j best → tried_before (S i) 0 best.
Proof.
  intros Hj (Hin & Hbl & Hzero & Hpos & Hmax).
  split; [done|]. split; [done|]. split; [done|]. split.
  - intros Hk. destruct (Hpos Hk) as [?|[? ?]]; left; lia.
  - intros [[i' j'] k'] Hbl' Hk' Hbef. apply Hmax; try done. simpl in *.
    destruct (block_fits _ _ _ _ _ Hbl' Hk').
    destruct Hbef as [?|[? ?]]; [|lia].
    destruct (decide (i' = i)) as [->|]; [right; lia|left; lia].
Qed.

Lemma try_starts_b_tried i : ∀ uj j best,
  drop j u = uj → tried_before i j best →
  tried_before (S i) 0 (classic.try_starts_b i (drop i s) j uj best).
Proof.
  induction uj as [|y uj IH]; intros j best Hdrop Hbest; simpl.
  { apply (tried_before_row i j); [|done].
    apply (f_equal length) in Hdrop. rewrite length_drop in Hdrop.
    simpl in Hdrop. lia. }
  apply IH.
  { by rewrite <- Nat.add_1_r, <- drop_drop, Hdrop. }
  rewrite <- Hdrop. set (k := classic.common_prefix (drop i s) (drop j u)).
  assert (block s u (i, j, k)) as Hblk.
  { intros d Hd. simpl in *. rewrite <- same_at_drop.
    by apply common_prefix_block. }
  assert (∀ m', block s u m' → m'.1.1 = i → m'.1.2 = j → m'.2 ≤ k) as Hk.
  { intros [[i' j'] k'] Hbl' Hi Hj. simpl in *. subst i' j'.
    apply common_prefix_max. intros d Hd. rewrite same_at_drop.
    by apply (Hbl' d). }
  destruct Hbest as (Hin & Hbl & Hzero & Hpos & Hmax).
  unfold difflib.size. destruct (best.2 <? k) eqn:E.
  - apply Nat.ltb_lt in E.
    destruct (block_fits _ _ _ _ _ Hblk) as [Hf1 Hf2]; [lia|].
    split; [unfold inside; simpl; lia|]. split; [done|].
    split; [simpl; lia|]. split; [intros _; right; simpl; lia|].
    intros m' Hbl' Hk' Hbef. simpl.
    destruct (decide (m'.1.1 = i ∧ m'.1.2 = j)) as [[Hi Hj]|Hne].
    + pose proof (Hk m' Hbl' Hi Hj). lia.
    + destruct (Hmax m' Hbl' Hk') as [?|[? _]]; [|lia|lia].
      destruct Hbef as [?|[? ?]]; [by left|right; lia].
  - apply Nat.ltb_ge in E.
    split; [done|]. split; [done|]. split; [done|]. split.
    + intros Hb1. destruct (Hpos Hb1) as [?|[? ?]]; [by left|right; lia].
    + intros m' Hbl' Hk' Hbef.
      destruct (decide (m'.1.1 = i ∧ m'.1.2 = j)) as [[Hi Hj]|Hne].
      * pose proof (Hk m' Hbl' Hi Hj).
        destruct (decide (m'.2 < best.2)); [by left|right].
        split; [lia|]. destruct Hpos as [?|[? ?]]; lia.
      * apply Hmax; try done.
        destruct Hbef as [?|[? ?]]; [by left|right; lia].
Qed.

Lemma try_starts_a_tried : ∀ si i best,
  drop i s = si → i ≤ length s → tried_before i 0 best →
  tried_before (length s) 0 (classic.try_starts_a i si u best).
Proof.
  induction si as [|x si IH]; intros i best Hdrop Hi Hbest; simpl.
  { apply (f_equal length) in Hdrop. rewrite length_drop in Hdrop.
    simpl in Hdrop. by replace (length s) with i by lia. }
  assert (i < length s) as Hi'.
  { apply (f_equal length) in Hdrop. rewrite length_drop in Hdrop.
    simpl in Hdrop. lia. }
  apply IH; [|lia|].
  { by rewrite <- Nat.add_1_r, <- drop_drop, Hdrop. }
  rewrite <- Hdrop. by apply try_starts_b_tried.
Qed.

Lemma longest_block_first_longest :
  first_longest s u 0 (length s) 0 (length u) (classic.longest_block s u).
Proof.
  destruct (try_starts_a_tried s 0 (0, 0, 0))
    as (Hin & Hbl & Hzero & _ & Hmax); [done|lia| |].
  { split; [unfold inside; simpl; lia|]. split; [intros d Hd; simpl in *; lia|].
    split; [done|]. split; [simpl; lia|].
    intros m' _ _ [?|[_ ?]]; lia. }
  split; [done|]. split; [done|]. split; [done|].
  intros m' Hin' Hbl' Hk'. apply Hmax; try done.
  left. destruct m' as [[i' j'] k']. simpl in *.
  destruct (block_fits _ _ _ _ _ Hbl' Hk'). lia.
Qed.
End classic_search.

(** ** Ranges of the loop and pieces of the texts *)

Lemma length_slice s lo hi :
  hi ≤ length s → length (slice s lo hi) = hi - lo.
Proof. intros H. unfold slice. rewrite length_take, length_drop. lia. Qed.

Lemma same_at_slice s u alo ahi blo bhi p q :
  p < ahi - alo → q < bhi - blo →
  same_at (slice s alo ahi) (slice u blo bhi) p q
  = same_at s u (alo + p) (blo + q).
Proof.
  intros Hp Hq. unfold same_at, slice.
  by rewrite !lookup_take_lt, !lookup_drop by done.
Qed.

Lemma slice_whole s : slice s 0 (length s) = s.
Proof. unfold slice. rewrite drop_0, Nat.sub_0_r. by apply take_ge. Qed.

Lemma slice_empty s lo : slice s lo lo = [].
Proof. unfold slice. by rewrite Nat.sub_diag. Qed.

Lemma take_slice s lo mid hi :
  lo ≤ mid → mid ≤ hi → take (mid - lo) (slice s lo hi) = slice s lo mid.
Proof.
  intros H1 H2. unfold slice. rewrite take_take. f_equal. lia.
Qed.

Lemma drop_slice s lo mid hi :
  lo ≤ mid → mid ≤ hi → drop (mid - lo) (slice s lo hi) = slice s mid hi.
Proof.
  intros H1 H2. unfold slice.
  replace (hi - lo) with ((mid - lo) + (hi - mid)) by lia.
  rewrite <- take_drop_commute, drop_drop. do 2 f_equal. lia.
Qed.

Lemma first_longest_slice s u alo ahi blo bhi i j k :
  ahi ≤ length s → bhi ≤ length u →
  first_longest s u alo ahi blo bhi (i, j, k) →
  first_longest (slice s alo ahi) (slice u blo bhi)
    0 (length (slice s alo ahi)) 0 (length (slice u blo bhi))
    (i - alo, j - blo, k).
Proof.
  intros Hahi Hbhi ((H1 & H2 & H3 & H4) & Hbl & Hzero & Hmax).
  simpl in *. rewrite !length_slice by done.
  split; [unfold inside; simpl; lia|]. split; [|split].
  - intros d Hd. simpl in *. rewrite same_at_slice by lia.
    pose proof (Hbl d Hd) as Hs. simpl in Hs. reindex Hs.
  - simpl. intros ->. injection (Hzero eq_refl) as -> ->.
    by rewrite !Nat.sub_diag.
  - intros [[i' j'] k'] (H1' & H2' & H3' & H4') Hbl' Hk'. simpl in *.
    destruct (Hmax (alo + i', blo + j', k')) as [?|[? ?]]; simpl.
    + unfold inside; simpl; lia.
    + intros d Hd. simpl in *.
      pose proof (Hbl' d Hd) as Hs. simpl in Hs.
      rewrite same_at_slice in Hs by lia. reindex Hs.
    + done.
    + by left.
    + right. split; [done|]. simpl in *. lia.
Qed.

Lemma longest_block_fits s u :
  inside 0 (length s) 0 (length u) (classic.longest_block s u).
Proof. by destruct (longest_block_first_longest s u). Qed.

Lemma longest_block_nil_r s : (classic.longest_block s []).2 = 0.
Proof.
  destruct (longest_block_fits s []) as (_ & _ & _ & H). simpl in H. lia.
Qed.

(** More fuel than the length of the first text changes nothing. *)
Lemma matched_upto_enough f : ∀ f' s u,
  length s ≤ f → length s ≤ f' →
  classic.matched_upto f s u = classic.matched_upto f' s u.
Proof.
  induction f as [|f IH]; intros f' s u Hf Hf'.
  { destruct s; [|simpl in Hf; lia]. by destruct f'. }
  destruct f' as [|f'].
  { destruct s; [|simpl in Hf'; lia]. done. }
  simpl. pose proof (longest_block_fits s u) as Hin.
  destruct (classic.longest_block s u) as [[i j] k].
  destruct Hin as (_ & H2 & _ & H4). simpl in *.
  destruct (k =? 0) eqn:E; [done|]. apply Nat.eqb_neq in E.
  rewrite (IH f' (take i s)), (IH f' (drop (i + k) s)); try done;
    rewrite ?length_take, ?length_drop; lia.
Qed.

Lemma matched_unfold s u :
  classic.matched s u =
  let '(i, j, k) := classic.longest_block s u in
  if k =? 0 then 0
  else classic.matched (take i s) (take j u) + k
       + classic.matched (drop (i + k) s) (drop (j + k) u).
Proof.
  unfold classic.matched. destruct (length s) as [|n] eqn:Hn.
  { destruct s; [|done]. done. }
  simpl. pose proof (longest_block_fits s u) as Hin.
  destruct (classic.longest_block s u) as [[i j] k].
  destruct Hin as (_ & H2 & _ & H4). simpl in *.
  destruct (k =? 0) eqn:E; [done|]. apply Nat.eqb_neq in E.
  f_equal; [f_equal|]; apply matched_upto_enough;
    rewrite ?length_take, ?length_drop; lia.
Qed.

Lemma matched_nil_l u : classic.matched [] u = 0.
Proof. reflexivity. Qed.

Lemma matched_nil_r s : classic.matched s [] = 0.
Proof.
  rewrite matched_unfold. pose proof (longest_block_nil_r s) as H.
  destruct (classic.longest_block s []) as [[i j] k]. simpl in H.
  by rewrite H.
Qed.

Section loop_is_classic.
Variable self : difflib.SequenceMatcher.
Hypothesis Hindex : ∀ x,
  default [] (difflib.b2j self !! x) = positions x 0 (difflib.b self).

Lemma find_longest_match_classic alo ahi blo bhi :
  in_texts (difflib.a self) (difflib.b self) (alo, ahi, blo, bhi) →
  inside alo ahi blo bhi (difflib.find_longest_match self alo ahi blo bhi)
  ∧ classic.longest_block (slice (difflib.a self) alo ahi)
      (slice (difflib.b self) blo bhi)
    = ((difflib.find_longest_match self alo ahi blo bhi).1.1 - alo,
       (difflib.find_longest_match self alo ahi blo bhi).1.2 - blo,
       (difflib.find_longest_match self alo ahi blo bhi).2).
Proof.
  intros (H1 & H2 & H3 & H4). simpl in *.
  pose proof (find_longest_match_first_longest self alo ahi blo bhi
                Hindex H2 H4 H1 H3) as Hfl.
  destruct (difflib.find_longest_match self alo ahi blo bhi) as [[i j] k].
  split; [by destruct Hfl|]. simpl.
  eapply first_longest_unique; [apply longest_block_first_longest|].
  by apply first_longest_slice.
Qed.

Lemma blocks_loop_classic steps : ∀ queue blocks,
  Forall (in_texts (difflib.a self) (difflib.b self)) queue →
  steps_needed queue ≤ steps →
  total_size (difflib.blocks_loop self steps queue blocks).2
  = total_size blocks + queue_matched (difflib.a self) (difflib.b self) queue.
Proof.
  induction steps as [|steps IH]; intros queue blocks Hq Hsteps.
  { destruct queue as [|r queue]; simpl in *; lia. }
  destruct queue as [|[[[alo ahi] blo] bhi] queue]; simpl in *; [lia|].
  apply Forall_cons in Hq as [Hr Hq].
  destruct (find_longest_match_classic alo ahi blo bhi Hr) as [Hin Hcl].
  destruct Hr as (Hr1 & Hr2 & Hr3 & Hr4). simpl in *.
  unfold region_matched at 1. simpl. rewrite matched_unfold, Hcl.
  destruct (difflib.find_longest_match self alo ahi blo bhi) as [[i j] k].
  destruct Hin as (H1 & H2 & H3 & H4). simpl in *.
  destruct (k =? 0) eqn:Ek.
  { rewrite IH; [lia|done|lia]. }
  apply Nat.eqb_neq in Ek.
  rewrite !take_slice by lia.
  replace (i - alo + k) with (i + k - alo) by lia.
  replace (j - blo + k) with (j + k - blo) by lia.
  rewrite !drop_slice by lia.
  rewrite IH.
  - rewrite total_size_app. unfold difflib.size. simpl.
    destruct ((alo <? i) && (blo <? j)) eqn:E1,
      ((i + k <? ahi) && (j + k <? bhi)) eqn:E2; simpl;
      unfold region_matched; simpl.
    + lia.
    + apply andb_false_iff in E2 as [E2|E2]; apply Nat.ltb_ge in E2.
      * replace (i + k) with ahi by lia.
        rewrite slice_empty, matched_nil_l. lia.
      * replace (j + k) with bhi by lia.
        rewrite (slice_empty _ bhi), matched_nil_r. lia.
    + apply andb_false_iff in E1 as [E1|E1]; apply Nat.ltb_ge in E1.
      * replace i with alo by lia.
        rewrite (slice_empty _ alo), matched_nil_l. lia.
      * replace j with blo by lia.
        rewrite (slice_empty _ blo), matched_nil_r. lia.
    + apply andb_false_iff in E1 as [E1|E1]; apply Nat.ltb_ge in E1;
        apply andb_false_iff in E2 as [E2|E2]; apply Nat.ltb_ge in E2.
      * replace i with alo by lia. replace (alo + k) with ahi by lia.
        rewrite !slice_empty, !matched_nil_l. lia.
      * replace i with alo by lia. replace (j + k) with bhi by lia.
        rewrite (slice_empty _ alo), (slice_empty _ bhi),
          matched_nil_l, matched_nil_r. lia.
      * replace j with blo by lia. replace (i + k) with ahi by lia.
        rewrite (slice_empty _ blo), (slice_empty _ ahi),
          matched_nil_l, matched_nil_r. lia.
      * replace j with blo by lia. replace (blo + k) with bhi by lia.
        rewrite (slice_empty _ blo), (slice_empty _ bhi), !matched_nil_r.
        lia.
  - destruct ((alo <? i) && (blo <? j)), ((i + k <? ahi) && (j + k <? bhi));
      repeat (apply Forall_cons; split); try done;
      unfold in_texts; simpl; lia.
  - destruct ((alo <? i) && (blo <? j)), ((i + k <? ahi) && (j + k <? bhi));
      simpl; lia.
Qed.

Lemma matched_classic :
  difflib.matched self = classic.matched (difflib.a self) (difflib.b self).
Proof.
  rewrite matched_loop, blocks_loop_classic.
  - simpl. unfold region_matched. simpl. rewrite !slice_whole. lia.
  - repeat constructor; simpl; lia.
  - unfold difflib.steps_for. simpl. lia.
Qed.
End loop_is_classic.

(** C3, as the code has it: when the lower-cased normalised prediction has
    fewer than 200 characters, the similarity before the bonuses is
    2 * M / T, with T the sum of the two lengths and M the number of
    characters matched by the classic recursive alignment on the longest
    common block; it is 1.0 when both texts are empty.  From 200
    characters on, the library leaves the popular characters of the
    prediction out of its index, and the value can be lower. *)
Theorem similarity_ratio_is_classic :
  ∀ (gold_text pred_text : text),
    length (lower (_normalize_text pred_text)) < 200 →
    (similarity_ratio (signals gold_text pred_text) ==
     if length (lower (_normalize_text gold_text))
        + length (lower (_normalize_text pred_text)) =? 0
     then 1
     else inject_Z (Z.of_nat
            (2 * classic.matched (lower (_normalize_text gold_text))
                                 (lower (_normalize_text pred_text))))
          / inject_Z (Z.of_nat
              (length (lower (_normalize_text gold_text))
               + length (lower (_normalize_text pred_text)))))%Q.
Proof.
  intros gold_text pred_text Hshort.
  open_signals.
  unfold difflib.ratio, difflib._calculate_ratio.
  rewrite matched_classic by (intros x; by apply chain_b_short).
  unfold difflib.init. cbn [difflib.a difflib.b].
  destruct (_ =? 0) eqn:E; [reflexivity|].
  apply Nat.eqb_neq in E. apply frac_div. lia.
Qed.

Lemma similarity_ratio_is_classic_witness :
  (similarity_ratio (signals (txt "hello world") (txt "goodbye mars"))
   == 6 # 23)%Q.
Proof.
  rewrite (similarity_ratio_is_classic (txt "hello world") (txt "goodbye mars"))
    by (vm_compute; lia).
  vm_compute. reflexivity.
Defined.

(** C3 as stated fails on a long prediction: against [x], the library
    finds no block in [y] followed by 199 times [x], where the classic
    alignment matches one character. *)
Lemma similarity_ratio_of_long_prediction :
  ¬ (similarity_ratio (signals (txt "x") long_prediction) ==
     inject_Z (Z.of_nat
       (2 * classic.matched (lower (_normalize_text (txt "x")))
                            (lower (_normalize_text long_prediction))))
     / inject_Z (Z.of_nat
         (length (lower (_normalize_text (txt "x")))
          + length (lower (_normalize_text long_prediction)))))%Q.
Proof. intros H. vm_compute in H. discriminate H. Qed.

Example similarity_ratio_long_prediction_value :
  similarity_ratio (signals (txt "x") long_prediction) = (0 # 201)%Q
  ∧ classic.matched (lower (_normalize_text (txt "x")))
      (lower (_normalize_text long_prediction)) = 1.
Proof. split; vm_compute; reflexivity. Qed.

(** * Further properties of the code *)

(** ** The call: the two modes, empty texts and the range of the signals *)

(** X1: the two modes agree: a call in detailed mode and a call in scalar
    mode on the same inputs print the same lines, and the entry [total]
    of the one is the number returned by the other; when one of them
    raises to its caller, so does the other, and the same exception. *)
Theorem detailed_and_scalar_agree :
  ∀ (self : WorkingRAGMetric) (gold pred : PyVal),
    (∃ printed d x,
       __call__ self gold pred true = (printed, inr (Detailed d))
       ∧ __call__ self gold pred false = (printed, inr (Scalar x))
       ∧ d !! "total"%string = Some x)
    ∨ (∃ raised,
         __call__ self gold pred true = ([], inl raised)
         ∧ __call__ self gold pred false = ([], inl raised)).
Proof.
  intros self gold pred.
  assert (∀ e, (∀ trace, score_body self gold pred trace = inl e) →
    (∃ printed d x,
       __call__ self gold pred true = (printed, inr (Detailed d))
       ∧ __call__ self gold pred false = (printed, inr (Scalar x))
       ∧ d !! "total"%string = Some x)
    ∨ (∃ raised,
         __call__ self gold pred true = ([], inl raised)
         ∧ __call__ self gold pred false = ([], inl raised))) as Hfault.
  { intros e He.
    rewrite !(call_handles _ _ _ _ e (He _)).
    destruct e as [msg|raised|msg]; [left|right; eauto..].
    eexists _, _, _. split; [reflexivity|]. split; reflexivity. }
  destruct (_extract_text self gold) as [e|g] eqn:Hg.
  { apply (Hfault e). intros trace. apply score_body_fault. by left. }
  destruct (_extract_text self pred) as [e|p] eqn:Hp.
  { apply (Hfault e). intros trace. apply score_body_fault. right.
    by rewrite Hg. }
  left. unfold __call__, try_except, score_body. rewrite Hg, Hp. cbn [bind].
  destruct (is_empty g || is_empty p).
  - eexists _, _, _. split; [reflexivity|]. split; reflexivity.
  - eexists _, _, _. split; [reflexivity|]. split; reflexivity.
Qed.

Lemma call_empty_text self gold pred trace gold_text pred_text :
  _extract_text self gold = inr gold_text →
  _extract_text self pred = inr pred_text →
  gold_text = [] ∨ pred_text = [] →
  __call__ self gold pred trace
  = ([], inr (if trace then Detailed zero_scores else Scalar 0)).
Proof.
  intros Hg Hp Hempty.
  unfold __call__, try_except, score_body. rewrite Hg, Hp. cbn [bind].
  replace (is_empty gold_text || is_empty pred_text) with true; [reflexivity|].
  destruct Hempty as [-> | ->]; [reflexivity|]. by rewrite orb_true_r.
Qed.

(** X2: when both extractions return and one of the two texts is empty,
    which is the case of an empty or white-space-only string, the call
    prints nothing and returns the all-zero result: three zero entries in
    detailed mode, [0.0] in scalar mode. *)
Theorem empty_text_scores_zero :
  ∀ (self : WorkingRAGMetric) (gold pred : PyVal) (gold_text pred_text : text)
    (trace : bool),
    _extract_text self gold = inr gold_text →
    _extract_text self pred = inr pred_text →
    gold_text = [] ∨ pred_text = [] →
    __call__ self gold pred trace
    = ([], inr (if trace then Detailed zero_scores else Scalar 0)).
Proof.
  intros self gold pred g p trace. apply call_empty_text.
Qed.

Lemma empty_text_scores_zero_witness :
  __call__ default_metric (VStr (txt "   ")) (VStr (txt "anything")) true
  = ([], inr (Detailed zero_scores)).
Proof.
  apply (empty_text_scores_zero default_metric (VStr (txt "   "))
           (VStr (txt "anything")) [] (txt "anything") true).
  - reflexivity.
  - reflexivity.
  - by left.
Defined.

Lemma signals_equal g p :
  lower (_normalize_text g) = lower (_normalize_text p) →
  exact_match (signals g p) = 1%Q ∧ total_score (signals g p) = 1%Q.
Proof.
  intros Heq. pose proof (similarity_range g p) as [_ H]. open_signals.
  destruct (decide _) as [_|Hne]; [|done].
  split; [reflexivity|]. by apply pymax_one.
Qed.

(** X3: two non-empty extracted texts that differ only in what
    normalisation and lower-casing remove (letter case, the punctuation
    marks, articles, white space) score 1.0: [exact_match] and [total] are
    1.0 in detailed mode, and the scalar is 1.0. *)
Theorem equal_up_to_normalization_scores_one :
  ∀ (self : WorkingRAGMetric) (gold pred : PyVal) (gold_text pred_text : text),
    _extract_text self gold = inr gold_text →
    _extract_text self pred = inr pred_text →
    gold_text ≠ [] → pred_text ≠ [] →
    lower (_normalize_text gold_text) = lower (_normalize_text pred_text) →
    (∃ d, __call__ self gold pred true = ([], inr (Detailed d))
          ∧ d !! "exact_match"%string = Some 1%Q
          ∧ d !! "total"%string = Some 1%Q)
    ∧ __call__ self gold pred false = ([], inr (Scalar 1)).
Proof.
  intros self gold pred g p Hg Hp Hg0 Hp0 Heq.
  unfold __call__, try_except.
  rewrite !(score_body_texts self gold pred _ g p) by done.
  destruct (signals_equal g p Heq) as [-> ->]. split; [|done].
  eexists. split; [reflexivity|]. split; reflexivity.
Qed.

Lemma equal_up_to_normalization_scores_one_witness :
  __call__ default_metric (VStr (txt "The Eiffel Tower!"))
    (VDict [(txt "response", VStr (txt "  eiffel   tower "))]) false
  = ([], inr (Scalar 1)).
Proof.
  apply (equal_up_to_normalization_scores_one default_metric
           (VStr (txt "The Eiffel Tower!"))
           (VDict [(txt "response", VStr (txt "  eiffel   tower "))])
           (txt "The Eiffel Tower!") (txt "eiffel   tower")).
  - reflexivity.
  - reflexivity.
  - discriminate.
  - discriminate.
  - vm_compute. reflexivity.
Defined.



Lemma float_of_bool_range flag : (0 <= float_of_bool flag <= 1)%Q.
Proof. by destruct flag. Qed.

(** X5: every entry of a detailed result, whatever its key, lies between
    0 and 1; there is no result when the call raises to its caller. *)
Theorem detailed_entries_in_unit_interval :
  ∀ (self : WorkingRAGMetric) (gold pred : PyVal),
    (∃ printed d,
       __call__ self gold pred true = (printed, inr (Detailed d))
       ∧ map_Forall (λ _ v, (0 <= v <= 1)%Q) d)
    ∨ propagates self gold pred true.
Proof.
  intros self gold pred.
  assert (∀ e, score_body self gold pred true = inl e →
    (∃ printed d,
       __call__ self gold pred true = (printed, inr (Detailed d))
       ∧ map_Forall (λ _ v, (0 <= v <= 1)%Q) d)
    ∨ propagates self gold pred true) as Hfault.
  { intros e Hb. destruct e as [msg|raised|msg];
      [|right; by apply (call_propagates _ _ _ _ _ Hb)..].
    left. rewrite (call_handles _ _ _ _ _ Hb).
    eexists _, _. split; [reflexivity|].
    repeat apply map_Forall_insert_2; try apply map_Forall_empty; done. }
  destruct (_extract_text self gold) as [e|g] eqn:Hg.
  { apply (Hfault e), score_body_fault. by left. }
  destruct (_extract_text self pred) as [e|p] eqn:Hp.
  { apply (Hfault e), score_body_fault. right. by rewrite Hg. }
  left. unfold __call__, try_except, score_body. rewrite Hg, Hp. cbn [bind].
  destruct (is_empty g || is_empty p).
  - eexists _, _. split; [reflexivity|].
    repeat apply map_Forall_insert_2; try apply map_Forall_empty; done.
  - eexists _, _. split; [reflexivity|].
    repeat apply map_Forall_insert_2; try apply map_Forall_empty.
    + apply exact_match_range.
    + apply similarity_range.
    + apply float_of_bool_range.
    + apply total_score_range.
Qed.

Lemma str_in_nil s : str_in [] s = true.
Proof. apply str_in_spec. by exists [], s. Qed.

(** X6: a text that is not empty but normalises to the empty text (only
    articles, punctuation marks and white space) counts as a partial
    match of everything: against any non-empty text on the other side the
    total is at least 0.7. *)
Theorem empty_normal_form_matches_anything :
  ∀ (self : WorkingRAGMetric) (gold pred : PyVal) (gold_text pred_text : text)
    (trace : bool),
    _extract_text self gold = inr gold_text →
    _extract_text self pred = inr pred_text →
    gold_text ≠ [] → pred_text ≠ [] →
    _normalize_text gold_text = [] ∨ _normalize_text pred_text = [] →
    ∃ r x, __call__ self gold pred trace = ([], inr r)
           ∧ total_of r = Some x ∧ (7 # 10 <= x)%Q.
Proof.
  intros self gold pred g p trace Hg Hp Hg0 Hp0 Hnil.
  destruct (call_texts self gold pred trace g p Hg Hp Hg0 Hp0) as (r & Hr & Ht).
  exists r, (total_score (signals g p)). split; [done|]. split; [done|].
  eapply Qle_trans; [|apply total_score_ge].
  eapply Qle_trans; [|apply similarity_ge].
  open_signals.
  replace (str_in _ _ || str_in _ _) with true; [apply pymax_ge_r|].
  symmetry. apply orb_true_iff.
  destruct Hnil as [-> | ->]; [left|right]; apply str_in_nil.
Qed.

Lemma empty_normal_form_matches_anything_witness :
  ∃ r x, __call__ default_metric (VStr (txt "The.")) (VStr (txt "banana")) false
         = ([], inr r)
         ∧ total_of r = Some x ∧ (7 # 10 <= x)%Q.
Proof.
  apply (empty_normal_form_matches_anything default_metric
           (VStr (txt "The.")) (VStr (txt "banana"))
           (txt "The.") (txt "banana") false).
  - reflexivity.
  - reflexivity.
  - discriminate.
  - discriminate.
  - left. reflexivity.
Defined.

(** ** _extract_text: what it does to its own result, and the field loop *)

Lemma lstrip_id s : spaceopt (head s) = false → lstrip s = s.
Proof. destruct s as [|c s]; simpl; [done|]. by intros ->. Qed.

Lemma strip_id s : trimmed s → strip s = s.
Proof.
  intros [Hh Hl]. unfold strip, rstrip. rewrite (lstrip_id s Hh).
  rewrite lstrip_id by by rewrite head_rev. apply rev_involutive.
Qed.

(** X7: extraction is idempotent on the values that hold no instance of
    a subclass of a built-in class: the text extracted from such a value,
    handed in again as a string, is extracted unchanged, whatever the
    configured field. *)
Theorem extract_text_idempotent :
  ∀ (self self' : WorkingRAGMetric) (data : PyVal) (s : text),
    plain data = true →
    _extract_text self data = inr s →
    _extract_text self' (VStr s) = inr s.
Proof.
  intros self self' data s Hp H. cbn [_extract_text builtin]. f_equal.
  apply strip_id. by eapply extract_text_trimmed_plain.
Qed.

Lemma extract_text_idempotent_witness :
  _extract_text default_metric (VStr (txt "{'outputs': 3}"))
  = inr (txt "{'outputs': 3}").
Proof.
  apply (extract_text_idempotent default_metric default_metric
           (VDict [(txt "outputs", VInt 3)])).
  - reflexivity.
  - reflexivity.
Defined.

(** X8: a call sees two inputs that hold no instance of a subclass of a
    built-in class only through the texts extracted from them: it gives
    what it gives on these two texts handed in as strings, printed lines
    included. *)
Theorem call_depends_on_extracted_texts :
  ∀ (self self' : WorkingRAGMetric) (gold pred : PyVal)
    (gold_text pred_text : text) (trace : bool),
    plain gold = true → plain pred = true →
    _extract_text self gold = inr gold_text →
    _extract_text self pred = inr pred_text →
    __call__ self gold pred trace
    = __call__ self' (VStr gold_text) (VStr pred_text) trace.
Proof.
  intros self self' gold pred g p trace Hpg Hpp Hg Hp.
  unfold __call__, score_body. rewrite Hg, Hp.
  cbn [_extract_text builtin].
  rewrite (strip_id g) by exact (extract_text_trimmed_plain self gold g Hpg Hg).
  rewrite (strip_id p) by exact (extract_text_trimmed_plain self pred p Hpp Hp).
  reflexivity.
Qed.

Lemma call_depends_on_extracted_texts_witness :
  __call__ default_metric (VDict [(txt "answer", VStr (txt " 42 "))])
    (VList [VInt 42]) true
  = __call__ {| output_field := txt "result" |} (VStr (txt "42"))
      (VStr (txt "[42]")) true.
Proof.
  apply (call_depends_on_extracted_texts default_metric
           {| output_field := txt "result" |}
           (VDict [(txt "answer", VStr (txt " 42 "))]) (VList [VInt 42])
           (txt "42") (txt "[42]") true); reflexivity.
Defined.

Lemma try_fields_first d pre field post v :
  (∀ f x, f ∈ pre → dict_get d f = Some x → passed_over x = true) →
  dict_get d field = Some v → passed_over v = false →
  try_fields d (pre ++ field :: post)
  = Some (match builtin v with VStr s => inr (strip s) | _ => py_str v end).
Proof.
  intros Hpre Hf Hv. induction pre as [|f pre IH]; simpl.
  - rewrite Hf. unfold passed_over in Hv. by destruct (builtin v).
  - destruct (dict_get d f) as [x|] eqn:E.
    + pose proof (Hpre f x ltac:(left) E) as Hx. unfold passed_over in Hx.
      destruct (builtin x); try discriminate Hx;
        apply IH; intros g y Hg; apply Hpre; by right.
    + apply IH. intros g y Hg. apply Hpre. by right.
Qed.

Lemma extract_text_first d self pre field post v :
  candidate_fields self = pre ++ field :: post →
  (∀ f x, f ∈ pre → dict_get d f = Some x → passed_over x = true) →
  dict_get d field = Some v → passed_over v = false →
  _extract_text self (VDict d)
  = match builtin v with VStr s => inr (strip s) | _ => py_str v end.
Proof.
  intros Hfields Hpre Hf Hv. cbn [_extract_text builtin].
  unfold extract_from_of.
  by rewrite Hfields, (try_fields_first d pre field post v).
Qed.

(** X9: of the candidate fields, the configured one first, the first one
    that holds a string, a [dict] or a [list] (or an instance of a
    subclass of these) decides the text: the string stripped, or the text
    of the [dict] or [list] as [str] gives it.  Later fields, the nested
    path and the rest of the [dict] play no part. *)
Theorem extract_text_first_usable_field :
  ∀ (self : WorkingRAGMetric) (d : list (text * PyVal))
    (pre : list text) (field : text) (post : list text) (v : PyVal),
    candidate_fields self = pre ++ field :: post →
    (∀ f x, f ∈ pre → dict_get d f = Some x → passed_over x = true) →
    dict_get d field = Some v →
    passed_over v = false →
    _extract_text self (VDict d)
    = match builtin v with VStr s => inr (strip s) | _ => py_str v end.
Proof. intros self d pre field post v. apply extract_text_first. Qed.

Lemma extract_text_first_usable_field_witness :
  _extract_text {| output_field := txt "result" |}
    (VDict [(txt "text", VStr (txt " late ")); (txt "answer", VInt 1);
            (txt "response", VList [VInt 1; VInt 2]);
            (txt "outputs", VDict [(txt "answer", VStr (txt "nested"))])])
  = inr (txt "[1, 2]").
Proof.
  apply (extract_text_first_usable_field {| output_field := txt "result" |}
           _ [txt "result"; txt "answer"] (txt "response") [txt "text"]
           (VList [VInt 1; VInt 2])).
  - reflexivity.
  - intros f x Hf. rewrite !elem_of_cons, elem_of_nil in Hf.
    destruct Hf as [->|[->|[]]]; vm_compute; [discriminate|].
    by intros [= <-].
  - reflexivity.
  - reflexivity.
Defined.

(** X10: a candidate field that holds an empty or white-space-only string
    shadows everything after it: when it is the first usable field of a
    [dict], the call returns the all-zero result on either side, whatever
    the later fields and the other input hold, as long as the other
    extraction returns. *)
Theorem empty_field_shadows_later_fields :
  ∀ (self : WorkingRAGMetric) (d : list (text * PyVal))
    (pre : list text) (field : text) (post : list text) (s : text)
    (other : PyVal) (other_text : text) (trace : bool),
    candidate_fields self = pre ++ field :: post →
    (∀ f x, f ∈ pre → dict_get d f = Some x → passed_over x = true) →
    dict_get d field = Some (VStr s) →
    strip s = [] →
    _extract_text self other = inr other_text →
    __call__ self (VDict d) other trace
    = ([], inr (if trace then Detailed zero_scores else Scalar 0))
    ∧ __call__ self other (VDict d) trace
      = ([], inr (if trace then Detailed zero_scores else Scalar 0)).
Proof.
  intros self d pre field post s other o trace Hfields Hpre Hf Hs Ho.
  pose proof (extract_text_first d self pre field post (VStr s)
                Hfields Hpre Hf eq_refl) as Hd.
  cbn [builtin] in Hd. rewrite Hs in Hd.
  split.
  - apply (call_empty_text _ _ _ _ [] o); auto.
  - apply (call_empty_text _ _ _ _ o []); auto.
Qed.

Lemma empty_field_shadows_later_fields_witness :
  __call__ default_metric (VStr (txt "Paris"))
    (VDict [(txt "answer", VStr (txt "  "));
            (txt "response", VStr (txt "Paris"))]) false
  = ([], inr (Scalar 0)).
Proof.
  apply (empty_field_shadows_later_fields default_metric
           [(txt "answer", VStr (txt "  "));
            (txt "response", VStr (txt "Paris"))]
           [] (txt "answer") [txt "answer"; txt "response"; txt "text"]
           (txt "  ") (VStr (txt "Paris")) (txt "Paris") false).
  - reflexivity.
  - intros f x Hf. by apply elem_of_nil in Hf.
  - reflexivity.
  - reflexivity.
  - reflexivity.
Defined.

Lemma try_fields_none d fields :
  (∀ f x, f ∈ fields → dict_get d f = Some x → passed_over x = true) →
  try_fields d fields = None.
Proof.
  induction fields as [|f fields IH]; intros Hall; simpl; [done|].
  assert (try_fields d fields = None) as Hrest
    by (apply IH; intros g y Hg; apply Hall; by right).
  destruct (dict_get d f) as [x|] eqn:E; [|done].
  pose proof (Hall f x ltac:(left) E) as Hx. unfold passed_over in Hx.
  by destruct (builtin x).
Qed.

(** X11: when no candidate field of a [dict] holds a string, a [dict] or a
    [list], the text is that of the value under [outputs] then [answer],
    whatever its type, converted by [str] and stripped, if [outputs] holds
    a [dict] with that key; otherwise it is the text of the whole [dict],
    stripped. *)
Theorem extract_text_after_the_fields :
  ∀ (self : WorkingRAGMetric) (d : list (text * PyVal)),
    (∀ f x, f ∈ candidate_fields self → dict_get d f = Some x →
            passed_over x = true) →
    (∀ outputs entries answer,
       dict_get d (txt "outputs") = Some outputs →
       builtin outputs = VDict entries →
       dict_get entries (txt "answer") = Some answer →
       _extract_text self (VDict d)
       = let* s := py_str answer in inr (strip s))
    ∧ ((∀ outputs entries,
          dict_get d (txt "outputs") = Some outputs →
          builtin outputs = VDict entries →
          dict_get entries (txt "answer") = None) →
       _extract_text self (VDict d)
       = let* s := py_str (VDict d) in inr (strip s)).
Proof.
  intros self d Hnone. cbn [_extract_text builtin]. unfold extract_from_of.
  rewrite (try_fields_none d _ Hnone). unfold after_fields_of. split.
  - intros outputs entries answer -> -> ->. reflexivity.
  - intros Hout.
    destruct (dict_get d (txt "outputs")) as [outputs|]; [|reflexivity].
    destruct (builtin outputs) as [x|z| |items|entries|a b|base a b] eqn:E;
      try reflexivity.
    by rewrite (Hout outputs entries eq_refl E).
Qed.

Lemma extract_text_after_the_fields_witness :
  _extract_text default_metric
    (VDict [(txt "answer", VInt 7);
            (txt "outputs", VDict [(txt "answer", VInt 42)])])
  = inr (txt "42").
Proof.
  refine (proj1 (extract_text_after_the_fields default_metric
            [(txt "answer", VInt 7);
             (txt "outputs", VDict [(txt "answer", VInt 42)])] _)
            (VDict [(txt "answer", VInt 42)])
            [(txt "answer", VInt 42)] (VInt 42) eq_refl eq_refl eq_refl).
  intros f x Hf. unfold candidate_fields in Hf.
  rewrite !elem_of_cons, elem_of_nil in Hf.
  destruct Hf as [->|[->|[->|[->|[]]]]]; vm_compute;
    first [discriminate | by intros [= <-]].
Defined.


(** ** _check_key_info: counting instead of dividing *)

Lemma frac_half n d : 0 < d → (1 # 2 <= difflib.frac n d)%Q ↔ d ≤ 2 * n.
Proof.
  intros Hd. unfold difflib.frac, Qle. simpl.
  destruct d as [|d]; [lia|].
  rewrite <- Pos.of_nat_succ, Zpos_P_of_succ_nat. lia.
Qed.

Lemma check_key_info_count gold pred :
  _check_key_info gold pred = true ↔
  0 < size (word_set gold ∖ stop_words)
  ∧ size (word_set gold ∖ stop_words)
    ≤ 2 * size ((word_set gold ∖ stop_words) ∩ word_set pred).
Proof.
  unfold _check_key_info. rewrite overlap_without_stop_words.
  destruct (size (word_set gold ∖ stop_words) =? 0) eqn:E.
  - apply Nat.eqb_eq in E. split; [done|lia].
  - apply Nat.eqb_neq in E. rewrite Qle_bool_iff, frac_half by lia. lia.
Qed.

(** X13: the key-information test can only gain from more words in the
    prediction: when it holds for a prediction, it holds for every
    prediction whose set of lower-cased words includes that of the first. *)
Theorem check_key_info_monotone :
  ∀ (gold pred pred' : text),
    word_set pred ⊆ word_set pred' →
    _check_key_info gold pred = true →
    _check_key_info gold pred' = true.
Proof.
  intros gold pred pred' Hsub. rewrite !check_key_info_count.
  intros [Hpos Hhalf]. split; [exact Hpos|].
  etransitivity; [exact Hhalf|]. apply Nat.mul_le_mono_l.
  apply subseteq_size. by apply intersection_mono_l.
Qed.

Lemma check_key_info_monotone_witness :
  _check_key_info (txt "cats and dogs are pets") (txt "my Dogs like cats")
  = true.
Proof.
  apply (check_key_info_monotone (txt "cats and dogs are pets")
           (txt "dogs cats") (txt "my Dogs like cats")).
  - apply (bool_decide_unpack _). vm_compute. reflexivity.
  - vm_compute. reflexivity.
Defined.

(** X14: the bonus for key information reaches the result of the call:
    when the two extracted texts are not empty and at least half of the
    content words of the normalised gold text, of which there is at least
    one, occur among the words of the normalised prediction, the total is
    at least 0.8 in either mode. *)
Theorem key_info_bonus_in_total :
  ∀ (self : WorkingRAGMetric) (gold pred : PyVal) (gold_text pred_text : text)
    (trace : bool),
    _extract_text self gold = inr gold_text →
    _extract_text self pred = inr pred_text →
    gold_text ≠ [] → pred_text ≠ [] →
    0 < size (word_set (_normalize_text gold_text) ∖ stop_words) →
    size (word_set (_normalize_text gold_text) ∖ stop_words)
    ≤ 2 * size ((word_set (_normalize_text gold_text) ∖ stop_words)
                ∩ word_set (_normalize_text pred_text)) →
    ∃ r x, __call__ self gold pred trace = ([], inr r)
           ∧ total_of r = Some x ∧ (8 # 10 <= x)%Q.
Proof.
  intros self gold pred g p trace Hg Hp Hg0 Hp0 Hpos Hhalf.
  destruct (call_texts self gold pred trace g p Hg Hp Hg0 Hp0) as (r & Hr & Ht).
  exists r, (total_score (signals g p)). split; [done|]. split; [done|].
  eapply Qle_trans; [|apply total_score_ge].
  open_signals.
  replace (_check_key_info _ _) with true; [apply pymax_ge_r|].
  symmetry. by apply check_key_info_count.
Qed.

Lemma key_info_bonus_in_total_witness :
  ∃ r x, __call__ default_metric (VStr (txt "cats and dogs are pets"))
           (VStr (txt "dogs cats pets")) false = ([], inr r)
         ∧ total_of r = Some x ∧ (8 # 10 <= x)%Q.
Proof.
  apply (key_info_bonus_in_total default_metric
           (VStr (txt "cats and dogs are pets")) (VStr (txt "dogs cats pets"))
           (txt "cats and dogs are pets") (txt "dogs cats pets") false).
  - reflexivity.
  - reflexivity.
  - discriminate.
  - discriminate.
  - vm_compute. lia.
  - vm_compute. lia.
Defined.

(** ** _normalize_text and letter case *)

Lemma isspace_lower c : isspace (lower_char c) = isspace c.
Proof. each_char c. Qed.

Lemma isword_lower c : isword (lower_char c) = isword c.
Proof. each_char c. Qed.

Lemma ispunct_lower c : re.ispunct (lower_char c) = re.ispunct c.
Proof. each_char c. Qed.

Lemma lower_char_idem c : lower_char (lower_char c) = lower_char c.
Proof. each_char c. Qed.

Lemma lstrip_lower s : lstrip (lower s) = lower (lstrip s).
Proof.
  induction s as [|c s IH]; simpl; [done|].
  rewrite isspace_lower. by destruct (isspace c).
Qed.

Lemma strip_lower s : strip (lower s) = lower (strip s).
Proof.
  unfold strip, rstrip, lower.
  change (map lower_char) with lower.
  rewrite lstrip_lower. unfold lower at 1. rewrite <- map_rev.
  change (map lower_char) with lower.
  rewrite lstrip_lower. unfold lower. by rewrite map_rev.
Qed.

Lemma sub_spaces_lower s : ∀ flag,
  re.sub_spaces flag (lower s) = lower (re.sub_spaces flag s).
Proof.
  induction s as [|c s IH]; intros flag; simpl; [done|].
  rewrite isspace_lower. destruct (isspace c).
  - destruct flag; [apply IH|]. simpl. f_equal. apply IH.
  - simpl. f_equal. apply IH.
Qed.

Lemma sub_punct_lower s : re.sub_punct (lower s) = lower (re.sub_punct s).
Proof.
  unfold re.sub_punct. induction s as [|c s IH]; simpl; [done|].
  rewrite ispunct_lower. destruct (re.ispunct c); simpl; by rewrite IH.
Qed.

Lemma wordopt_lower prev :
  re.wordopt (option_map lower_char prev) = re.wordopt prev.
Proof. destruct prev; simpl; [apply isword_lower|done]. Qed.

Lemma boundary_lower prev s :
  re.boundary (option_map lower_char prev) (lower s) = re.boundary prev s.
Proof.
  unfold re.boundary. rewrite wordopt_lower. f_equal.
  destruct s; simpl; [done|apply isword_lower].
Qed.

Lemma literal_lower w : ∀ prev s,
  re.literal w (option_map lower_char prev) (lower s)
  = option_map (λ lr : option ascii * text,
                  (option_map lower_char lr.1, lower lr.2))
      (re.literal w prev s).
Proof.
  induction w as [|x w IH]; intros prev s; simpl; [done|].
  destruct s as [|c s]; simpl; [done|].
  rewrite lower_char_idem. destruct (Ascii.eqb (lower_char c) x); [|done].
  apply (IH (Some c)).
Qed.

Lemma alternatives_lower ws prev s :
  re.alternatives ws (option_map lower_char prev) (lower s)
  = re.alternatives ws prev s.
Proof.
  induction ws as [|w ws IH]; simpl; [done|].
  rewrite literal_lower.
  destruct (re.literal w prev s) as [[lastc rest]|]; simpl; [|exact IH].
  rewrite boundary_lower. by rewrite IH.
Qed.

Lemma match_article_lower prev s :
  re.match_article (option_map lower_char prev) (lower s)
  = re.match_article prev s.
Proof.
  unfold re.match_article. by rewrite boundary_lower, alternatives_lower.
Qed.

Lemma sub_articles_lower s : ∀ skip prev,
  re.sub_articles skip (option_map lower_char prev) (lower s)
  = lower (re.sub_articles skip prev s).
Proof.
  induction s as [|c s IH]; intros skip prev; [done|].
  change (lower (c :: s)) with (lower_char c :: lower s).
  cbn [re.sub_articles]. destruct skip as [|k].
  - change (lower_char c :: lower s) with (lower (c :: s)).
    rewrite match_article_lower.
    destruct (re.match_article prev (c :: s)) as [[|k]|].
    + simpl. f_equal. apply (IH 0 (Some c)).
    + apply (IH k (Some c)).
    + simpl. f_equal. apply (IH 0 (Some c)).
  - apply (IH k (Some c)).
Qed.

Lemma normalize_lower t : _normalize_text (lower t) = lower (_normalize_text t).
Proof.
  unfold _normalize_text.
  rewrite strip_lower, sub_spaces_lower, sub_punct_lower.
  rewrite (sub_articles_lower _ 0 None). apply strip_lower.
Qed.

Lemma lower_normalize_eq t t' :
  lower t = lower t' →
  lower (_normalize_text t) = lower (_normalize_text t').
Proof. intros H. by rewrite <- !normalize_lower, H. Qed.

Lemma signals_lower_eq g g' p p' :
  lower g = lower g' → lower p = lower p' → signals g p = signals g' p'.
Proof.
  intros Hg%lower_normalize_eq Hp%lower_normalize_eq.
  unfold signals, _check_key_info, word_set. by rewrite Hg, Hp.
Qed.

(** X15: normalisation commutes with lower-casing. *)
Theorem normalize_text_commutes_with_lower :
  ∀ (t : text), _normalize_text (lower t) = lower (_normalize_text t).
Proof. exact normalize_lower. Qed.

(** X16: on strings of one-byte characters the score does not see letter
    case: two pairs of such strings that are equal after lower-casing give
    the same result, signal by signal. *)
Theorem call_ignores_letter_case :
  ∀ (self : WorkingRAGMetric) (g g' p p' : text) (trace : bool),
    lower g = lower g' → lower p = lower p' →
    __call__ self (VStr g) (VStr p) trace
    = __call__ self (VStr g') (VStr p') trace.
Proof.
  intros self g g' p p' trace Hg Hp.
  assert (lower (strip g) = lower (strip g')) as Hsg
    by by rewrite <- !strip_lower, Hg.
  assert (lower (strip p) = lower (strip p')) as Hsp
    by by rewrite <- !strip_lower, Hp.
  unfold __call__, score_body. cbn [_extract_text builtin bind].
  rewrite (signals_lower_eq _ _ _ _ Hsg Hsp).
  replace (is_empty (strip g)) with (is_empty (strip g'))
    by (destruct (strip g), (strip g'); done).
  replace (is_empty (strip p)) with (is_empty (strip p'))
    by (destruct (strip p), (strip p'); done).
  reflexivity.
Qed.

Lemma call_ignores_letter_case_witness :
  __call__ default_metric (VStr (txt "PARIS")) (VStr (txt "In Paris")) true
  = __call__ default_metric (VStr (txt "paris")) (VStr (txt "in paris")) true.
Proof.
  apply (call_ignores_letter_case default_metric (txt "PARIS") (txt "paris")
           (txt "In Paris") (txt "in paris") true); reflexivity.
Defined.

(** ** _normalize_text: what a second pass does *)

Lemma no_article_iff s : no_article_from None s ↔ ¬ standalone_article s.
Proof.
  split.
  - intros Hno Hart. by apply standalone_article_from in Hart.
  - intros Hns pre rest -> (Hprev & w & post & -> & Hw & Hpost).
    apply Hns. exists pre, w, post. split; [done|]. split; [done|].
    split; [|done]. unfold prev_of in Hprev. by destruct (last pre).
Qed.

Lemma alternatives_article ws : ∀ prev s n,
  Forall (λ wl, wl ∈ re.articles) ws →
  re.boundary prev s = true → re.alternatives ws prev s = Some n →
  article_at prev s.
Proof.
  induction ws as [|wl ws IH]; intros prev s n Hws Hb; simpl; [done|].
  apply Forall_cons in Hws as [Hwl Hws].
  destruct (re.literal wl prev s) as [[lastc rest]|] eqn:E; [|by apply IH].
  destruct (re.boundary lastc rest) eqn:Eb; [|by apply IH].
  intros _. apply literal_spec in E as (w & -> & <- & ->).
  destruct (article_letters w Hwl) as [Hne Hall].
  unfold re.boundary in *.
  rewrite wordopt_prev_of_word in Eb by done.
  destruct w as [|c w]; [done|]. simpl in Hb.
  apply Forall_cons in Hall as Hc. destruct Hc as [Hc _]. rewrite Hc in Hb.
  split; [by destruct (re.wordopt prev)|].
  exists (c :: w), rest. split; [done|]. split; [done|].
  by destruct (re.wordopt (head rest)).
Qed.

Lemma match_article_article_at prev s n :
  re.match_article prev s = Some n → article_at prev s.
Proof.
  unfold re.match_article. destruct (re.boundary prev s) eqn:Hb; [|done].
  apply alternatives_article; [|done]. apply Forall_forall. auto.
Qed.

Lemma no_article_from_tail prev c r :
  no_article_from prev (c :: r) → no_article_from (Some c) r.
Proof.
  intros Hno pre rest ->. rewrite <- (prev_of_cons prev).
  by apply (Hno (c :: pre) rest).
Qed.

Lemma no_article_from_head prev s :
  no_article_from prev s → ¬ article_at prev s.
Proof. intros Hno. exact (Hno [] s eq_refl). Qed.

(** Where no article stands alone, the third substitution changes
    nothing. *)
Lemma sub_articles_id s : ∀ prev,
  no_article_from prev s → re.sub_articles 0 prev s = s.
Proof.
  induction s as [|c r IH]; intros prev Hno; [done|].
  destruct (re.match_article prev (c :: r)) as [n|] eqn:E.
  { apply match_article_article_at in E.
    by apply no_article_from_head in Hno. }
  rewrite sub_articles_step by done. f_equal.
  apply IH. by eapply no_article_from_tail.
Qed.

Lemma sub_punct_id s :
  (∀ c, c ∈ s → re.ispunct c = false) → re.sub_punct s = s.
Proof.
  unfold re.sub_punct. induction s as [|c s IH]; intros H; simpl; [done|].
  rewrite (H c) by left. simpl. f_equal. apply IH.
  intros d Hd. apply H. by right.
Qed.

Lemma has_space_run_cons c s :
  has_space_run (c :: s)
  ↔ (isspace c = true ∧ spaceopt (head s) = true) ∨ has_space_run s.
Proof.
  split.
  - intros (pre & c1 & c2 & post & Hs & H1 & H2).
    destruct pre as [|d pre]; simpl in Hs.
    + injection Hs as -> ->. by left.
    + injection Hs as -> ->. right. by exists pre, c1, c2, post.
  - intros [[H1 H2]|(pre & c1 & c2 & post & -> & H1 & H2)].
    + destruct s as [|d s]; [done|]. by exists [], c, d, s.
    + by exists (c :: pre), c1, c2, post.
Qed.

Lemma has_space_run_nil : ¬ has_space_run [].
Proof. intros (pre & c1 & c2 & post & Hs & _). by destruct pre. Qed.

(** The first substitution leaves no two white-space characters side by
    side, and starts with none when it is inside a run. *)
Lemma sub_spaces_no_run s : ∀ flag,
  ¬ has_space_run (re.sub_spaces flag s)
  ∧ (flag = true → spaceopt (head (re.sub_spaces flag s)) = false).
Proof.
  induction s as [|c s IH]; intros flag; simpl.
  { split; [apply has_space_run_nil|done]. }
  destruct (isspace c) eqn:E.
  - destruct flag; [apply IH|].
    destruct (IH true) as [Hrun Hhead]. split; [|done].
    rewrite has_space_run_cons. intros [[_ H]|H]; [|done].
    by rewrite Hhead in H.
  - destruct (IH false) as [Hrun _]. split; [|by simpl].
    rewrite has_space_run_cons. intros [[H _]|H]; [|done].
    congruence.
Qed.

(** A text whose white space is single plain spaces is left as it is by
    the first substitution. *)
Lemma sub_spaces_id s : ∀ flag,
  (∀ c, c ∈ s → isspace c = true → c = " "%char) →
  ¬ has_space_run s →
  (flag = true → spaceopt (head s) = false) →
  re.sub_spaces flag s = s.
Proof.
  induction s as [|c s IH]; intros flag Hplain Hrun Hflag; simpl; [done|].
  assert (∀ d, d ∈ s → isspace d = true → d = " "%char) as Hplain'
    by (intros d Hd; apply Hplain; by right).
  assert (¬ has_space_run s) as Hrun'
    by (intros H; apply Hrun, has_space_run_cons; by right).
  destruct (isspace c) eqn:E.
  - destruct flag; [specialize (Hflag eq_refl); simpl in Hflag; congruence|].
    rewrite (Hplain c) by (done || by left). f_equal.
    apply IH; [done|done|]. intros _.
    destruct (spaceopt (head s)) eqn:Eh; [|done].
    destruct Hrun. apply has_space_run_cons. by left.
  - f_equal. by apply IH.
Qed.

Lemma sub_spaces_elem s : ∀ flag c,
  c ∈ re.sub_spaces flag s → c ∈ s ∨ c = " "%char.
Proof.
  induction s as [|d s IH]; intros flag c; simpl; [by left|].
  destruct (isspace d).
  - destruct flag.
    + intros [H|H]%IH; [left; by right|by right].
    + intros [->|[H|H]%IH]%elem_of_cons; [by right|left; by right|by right].
  - intros [->|[H|H]%IH]%elem_of_cons; [left; by left|left; by right|by right].
Qed.

Lemma last_cons_Some (c d : ascii) (l : text) :
  last l = Some d → last (c :: l) = Some d.
Proof. by destruct l. Qed.

Lemma sub_spaces_last s : ∀ flag d,
  last s = Some d → isspace d = false →
  last (re.sub_spaces flag s) = Some d.
Proof.
  induction s as [|c s IH]; intros flag d Hlast Hd; [done|].
  destruct s as [|c' s].
  - injection Hlast as ->. simpl. by rewrite Hd.
  - change (last (c :: c' :: s)) with (last (c' :: s)) in Hlast.
    remember (c' :: s) as r eqn:Er. simpl. destruct (isspace c).
    + destruct flag; [by apply IH|]. apply last_cons_Some. by apply IH.
    + apply last_cons_Some. by apply IH.
Qed.

Lemma sub_spaces_trimmed s : trimmed s → trimmed (re.sub_spaces false s).
Proof.
  intros [Hh Hl]. split.
  - destruct s as [|c s]; [done|]. simpl in *. by rewrite Hh.
  - destruct (last s) as [d|] eqn:E.
    + simpl in Hl. by rewrite (sub_spaces_last s false d E Hl).
    + apply last_None in E. by subst s.
Qed.

(** A run of word characters in the result of the first substitution
    stood in the text. *)
Lemma sub_spaces_keeps_run w : ∀ r post,
  Forall (λ c, isword c = true) w →
  re.wordopt (head post) = false →
  re.sub_spaces false r = w ++ post →
  ∃ post0, r = w ++ post0 ∧ re.wordopt (head post0) = false.
Proof.
  induction w as [|d w IH]; intros r post Hall Hpost Hout.
  - exists r. split; [done|]. destruct r as [|e r]; [done|].
    simpl in *. destruct (isspace e) eqn:E; [by apply space_not_word|].
    by rewrite <- Hout in Hpost.
  - apply Forall_cons in Hall as [Hd Hall].
    destruct r as [|e r]; [done|]. simpl in Hout.
    destruct (isspace e) eqn:E.
    + injection Hout as <- _. done.
    + injection Hout as -> Hout.
      destruct (IH r post Hall Hpost Hout) as (post0 & -> & Hp0).
      by exists post0.
Qed.

(** The first substitution makes no article stand alone. *)
Lemma sub_spaces_no_article s : ∀ flag prev prev',
  re.wordopt prev = re.wordopt prev' →
  (flag = true → re.wordopt prev = false) →
  no_article_from prev s →
  no_article_from prev' (re.sub_spaces flag s).
Proof.
  induction s as [|c s IH]; intros flag prev prev' Hprev Hflag Hno.
  { apply no_article_from_nil. }
  pose proof (no_article_from_tail _ _ _ Hno) as Htail.
  simpl. destruct (isspace c) eqn:E.
  - pose proof (space_not_word c E) as Hc.
    destruct flag.
    + apply (IH true (Some c)); [|done|done].
      simpl. rewrite Hc. rewrite <- Hprev. symmetry. by apply Hflag.
    + apply no_article_from_cons.
      * intros Hart. by apply article_at_head_word in Hart.
      * apply (IH true (Some c)); [|done|done]. simpl. by rewrite Hc.
  - apply no_article_from_cons; [|by apply (IH false (Some c))].
    intros (Hp' & w & post & Hs & Hw & Hpost).
    destruct (article_letters w Hw) as [Hne Hall].
    destruct w as [|c' w]; [done|]. injection Hs as <- Hs.
    apply Forall_cons in Hall as [_ Hall].
    destruct (sub_spaces_keeps_run w s post Hall Hpost Hs)
      as (post0 & -> & Hpost0).
    apply (no_article_from_head _ _ Hno).
    split; [congruence|]. by exists (c :: w), post0.
Qed.

(** On a text that is trimmed, without punctuation marks and without an
    article standing alone, normalisation is the first substitution
    alone. *)
Lemma normalize_collapses s :
  trimmed s → (∀ c, c ∈ s → re.ispunct c = false) → ¬ standalone_article s →
  _normalize_text s = re.sub_spaces false s.
Proof.
  intros Htrim Hpunct Hart. unfold _normalize_text.
  rewrite (strip_id s Htrim).
  rewrite sub_punct_id.
  - rewrite sub_articles_id.
    + apply strip_id. by apply sub_spaces_trimmed.
    + apply (sub_spaces_no_article s false None None); [done|done|].
      by apply no_article_iff.
  - intros c [Hc| ->]%sub_spaces_elem; [by apply Hpunct|reflexivity].
Qed.

Lemma canonical_collapsed s :
  trimmed s → (∀ c, c ∈ s → re.ispunct c = false) → ¬ standalone_article s →
  canonical (re.sub_spaces false s).
Proof.
  intros Htrim Hpunct Hart.
  split; [by apply sub_spaces_trimmed|]. split; [|split; [|split]].
  - intros c [Hc| ->]%sub_spaces_elem; [by apply Hpunct|reflexivity].
  - apply no_article_iff.
    apply (sub_spaces_no_article s false None None); [done|done|].
    by apply no_article_iff.
  - intros c. apply sub_spaces_plain.
  - apply (sub_spaces_no_run s false).
Qed.

Lemma normalize_canonical s : canonical s → _normalize_text s = s.
Proof.
  intros (Htrim & Hpunct & Hart & Hplain & Hrun).
  rewrite normalize_collapses by done. by apply sub_spaces_id.
Qed.

Lemma normalize_twice t :
  _normalize_text (_normalize_text t) = re.sub_spaces false (_normalize_text t).
Proof.
  destruct (normalize_text_holds t) as (H1 & H2 & H3 & _).
  by apply normalize_collapses.
Qed.

(** X17: what holds of every normalised text: no white space at either
    end, none of the eight punctuation characters, no article standing
    alone, and no white-space character other than the plain space. *)
Theorem normalized_text_invariants :
  ∀ (t : text),
    trimmed (_normalize_text t)
    ∧ (∀ c, c ∈ _normalize_text t → re.ispunct c = false)
    ∧ ¬ standalone_article (_normalize_text t)
    ∧ (∀ c, c ∈ _normalize_text t → isspace c = true → c = " "%char).
Proof. exact normalize_text_holds. Qed.

(** X18: the texts that normalisation leaves unchanged are exactly the
    canonical ones: trimmed, free of the punctuation marks and of articles
    standing alone, with single plain spaces as their only white space. *)
Theorem normalize_text_fixed_points :
  ∀ (s : text), _normalize_text s = s ↔ canonical s.
Proof.
  intros s. split; [|apply normalize_canonical].
  intros Hfix. destruct (normalize_text_holds s) as (H1 & H2 & H3 & H4).
  rewrite Hfix in H1, H2, H3, H4.
  split; [done|]. split; [done|]. split; [done|]. split; [done|].
  rewrite <- Hfix, normalize_collapses by done.
  apply (sub_spaces_no_run s false).
Qed.

(** X19: a second pass of normalisation only collapses the runs of spaces
    that the first pass left; its result is canonical, so that a third
    pass changes nothing. *)
Theorem normalize_text_stable_after_two_passes :
  ∀ (t : text),
    _normalize_text (_normalize_text t)
    = re.sub_spaces false (_normalize_text t)
    ∧ canonical (_normalize_text (_normalize_text t))
    ∧ _normalize_text (_normalize_text (_normalize_text t))
      = _normalize_text (_normalize_text t).
Proof.
  intros t. destruct (normalize_text_holds t) as (H1 & H2 & H3 & _).
  assert (canonical (_normalize_text (_normalize_text t))) as Hcan
    by (rewrite normalize_twice; by apply canonical_collapsed).
  split; [apply normalize_twice|]. split; [exact Hcan|].
  by apply normalize_canonical.
Qed.

(** X20: normalisation is idempotent on a text exactly when the first pass
    leaves no two white-space characters side by side. *)
Theorem normalize_text_idempotent_iff :
  ∀ (t : text),
    _normalize_text (_normalize_text t) = _normalize_text t
    ↔ ¬ has_space_run (_normalize_text t).
Proof.
  intros t. rewrite normalize_twice. split.
  - intros <-. apply (sub_spaces_no_run _ false).
  - intros Hrun. destruct (normalize_text_holds t) as (_ & _ & _ & H4).
    by apply sub_spaces_id.
Qed.

(** ** _normalize_text only deletes *)

Lemma visible_sublist (s u : text) :
  s `sublist_of` u → visible s `sublist_of` visible u.
Proof.
  unfold visible. induction 1 as [|c s u _ IH|c s u _ IH]; simpl.
  - constructor.
  - destruct (negb (isspace c)); [by constructor|done].
  - destruct (negb (isspace c)); [by constructor|done].
Qed.

Lemma visible_self s : visible s `sublist_of` s.
Proof.
  unfold visible. induction s as [|c s IH]; simpl; [constructor|].
  destruct (negb (isspace c)); by constructor.
Qed.

Lemma visible_sub_spaces s : ∀ flag, visible (re.sub_spaces flag s) = visible s.
Proof.
  unfold visible. induction s as [|c s IH]; intros flag; simpl; [done|].
  destruct (isspace c) eqn:E; simpl.
  - destruct flag; simpl; apply IH.
  - rewrite E. simpl. f_equal. apply IH.
Qed.

Lemma strip_sublist s : strip s `sublist_of` s.
Proof.
  destruct (strip_split s) as (ws1 & ws2 & Hs & _). rewrite Hs at 2.
  apply sublist_inserts_l, sublist_inserts_r. done.
Qed.

Lemma sub_punct_sublist s : re.sub_punct s `sublist_of` s.
Proof.
  unfold re.sub_punct. induction s as [|c s IH]; simpl; [constructor|].
  destruct (negb (re.ispunct c)); by constructor.
Qed.

Lemma sub_articles_sublist s : ∀ skip prev,
  re.sub_articles skip prev s `sublist_of` s.
Proof.
  induction s as [|c s IH]; intros skip prev; simpl; [constructor|].
  destruct skip as [|k]; [|constructor; apply IH].
  destruct (re.match_article prev (c :: s)) as [[|k]|];
    constructor; apply IH.
Qed.

Lemma length_sub_spaces s : ∀ flag, length (re.sub_spaces flag s) ≤ length s.
Proof.
  induction s as [|c s IH]; intros flag; simpl; [done|].
  destruct (isspace c); [destruct flag|]; simpl;
    try (apply le_n_S; apply IH).
  etransitivity; [apply IH|lia].
Qed.

(** X21: normalisation only deletes characters and rewrites white space:
    its result is never longer than the text, and what it shows apart
    from white space is a subsequence of the text. *)
Theorem normalize_text_only_deletes :
  ∀ (t : text),
    length (_normalize_text t) ≤ length t
    ∧ visible (_normalize_text t) `sublist_of` t.
Proof.
  intros t. unfold _normalize_text. split.
  - etransitivity; [apply sublist_length, strip_sublist|].
    etransitivity; [apply sublist_length, sub_articles_sublist|].
    etransitivity; [apply sublist_length, sub_punct_sublist|].
    etransitivity; [apply length_sub_spaces|].
    apply sublist_length, strip_sublist.
  - etransitivity; [apply visible_sublist, strip_sublist|].
    etransitivity; [apply visible_sublist, sub_articles_sublist|].
    etransitivity; [apply visible_sublist, sub_punct_sublist|].
    rewrite visible_sub_spaces.
    etransitivity; [apply visible_self|]. apply strip_sublist.
Qed.

(** ** The similarity before the bonuses: bounds *)

Lemma frac_le n m d : n ≤ m → (difflib.frac n d <= difflib.frac m d)%Q.
Proof. intros H. unfold difflib.frac, Qle. simpl. nia. Qed.

Lemma frac_zero_iff n d : (difflib.frac n d == 0)%Q ↔ n = 0.
Proof. unfold difflib.frac, Qeq. simpl. lia. Qed.

(** X22: the similarity before the bonuses is at most twice the length of
    the shorter of the two lower-cased normalised texts over the sum of
    their lengths. *)
Theorem similarity_ratio_length_bound :
  ∀ (gold_text pred_text : text),
    0 < length (lower (_normalize_text gold_text))
        + length (lower (_normalize_text pred_text)) →
    (similarity_ratio (signals gold_text pred_text)
     <= inject_Z (Z.of_nat
          (2 * Nat.min (length (lower (_normalize_text gold_text)))
                       (length (lower (_normalize_text pred_text)))))
        / inject_Z (Z.of_nat
            (length (lower (_normalize_text gold_text))
             + length (lower (_normalize_text pred_text)))))%Q.
Proof.
  intros g p Hlen. rewrite <- frac_div by done. open_signals.
  unfold difflib.ratio, difflib._calculate_ratio.
  destruct (matched_fits
              (difflib.init true (lower (_normalize_text g))
                 (lower (_normalize_text p)))) as [Ha Hb].
  unfold difflib.init in *. cbn [difflib.a difflib.b] in *.
  destruct (_ =? 0) eqn:E; [apply Nat.eqb_eq in E; lia|].
  apply frac_le. lia.
Qed.

Lemma similarity_ratio_length_bound_witness :
  (similarity_ratio (signals (txt "Paris") (txt "Paris is the capital"))
   <= 10 # 22)%Q.
Proof.
  refine (similarity_ratio_length_bound (txt "Paris")
            (txt "Paris is the capital") _).
  vm_compute. lia.
Defined.

(** ** The similarity before the bonuses: no character in common *)

Lemma longest_block_common s u :
  (classic.longest_block s u).2 = 0 ↔ ∀ c, c ∈ s → c ∉ u.
Proof.
  destruct (longest_block_first_longest s u) as (Hin & Hbl & _ & Hmax).
  split.
  - intros Hk c [i Hi]%list_elem_of_lookup [j Hj]%list_elem_of_lookup.
    destruct (Hmax (i, j, 1)) as [H|[H _]]; simpl in *; try lia.
    + apply lookup_lt_Some in Hi, Hj. unfold inside. simpl. lia.
    + intros d Hd. simpl in *. replace d with 0 by lia.
      rewrite !Nat.add_0_r. unfold same_at. rewrite Hi, Hj.
      apply Ascii.eqb_refl.
  - intros Hno. destruct (classic.longest_block s u) as [[i j] k].
    simpl in *. destruct k as [|k]; [done|]. exfalso.
    pose proof (Hbl 0 ltac:(simpl; lia)) as Hs. simpl in Hs.
    rewrite !Nat.add_0_r in Hs. unfold same_at in Hs.
    destruct (s !! i) as [x|] eqn:Ex; [|done].
    destruct (u !! j) as [y|] eqn:Ey; [|done].
    apply Ascii.eqb_eq in Hs as ->.
    apply (Hno y); by eapply list_elem_of_lookup_2.
Qed.

Lemma matched_zero_iff s u :
  classic.matched s u = 0 ↔ (classic.longest_block s u).2 = 0.
Proof.
  rewrite matched_unfold.
  destruct (classic.longest_block s u) as [[i j] k]. simpl.
  destruct (k =? 0) eqn:E.
  - apply Nat.eqb_eq in E. by subst k.
  - apply Nat.eqb_neq in E. lia.
Qed.

(** X23: when the lower-cased normalised prediction has fewer than 200
    characters, the similarity before the bonuses is zero exactly when
    the two lower-cased normalised texts, not both empty, have no
    character in common. *)
Theorem similarity_ratio_zero_iff :
  ∀ (gold_text pred_text : text),
    length (lower (_normalize_text pred_text)) < 200 →
    0 < length (lower (_normalize_text gold_text))
        + length (lower (_normalize_text pred_text)) →
    (similarity_ratio (signals gold_text pred_text) == 0)%Q
    ↔ ∀ c, c ∈ lower (_normalize_text gold_text) →
           c ∉ lower (_normalize_text pred_text).
Proof.
  intros g p Hshort Hlen. open_signals.
  unfold difflib.ratio, difflib._calculate_ratio.
  rewrite matched_classic by (intros x; by apply chain_b_short).
  unfold difflib.init. cbn [difflib.a difflib.b].
  destruct (_ =? 0) eqn:E; [apply Nat.eqb_eq in E; lia|].
  rewrite frac_zero_iff, <- longest_block_common, <- matched_zero_iff. lia.
Qed.

Lemma similarity_ratio_zero_iff_witness :
  (similarity_ratio (signals (txt "abc") (txt "xyz")) == 0)%Q.
Proof.
  apply (similarity_ratio_zero_iff (txt "abc") (txt "xyz")).
  - vm_compute. lia.
  - vm_compute. lia.
  - intros c Hc Hc'.
    replace (lower (_normalize_text (txt "abc"))) with ["a"; "b"; "c"]%char
      in Hc by (vm_compute; reflexivity).
    replace (lower (_normalize_text (txt "xyz"))) with ["x"; "y"; "z"]%char
      in Hc' by (vm_compute; reflexivity).
    rewrite !elem_of_cons, elem_of_nil in Hc, Hc'.
    destruct Hc as [->|[->|[->|[]]]];
      destruct Hc' as [Hx|[Hx|[Hx|[]]]]; discriminate Hx.
Defined.

(** ** difflib on a text and itself *)

Lemma chain_b_cases autojunk s x :
  default [] (difflib.chain_b autojunk s !! x) = []
  ∨ default [] (difflib.chain_b autojunk s !! x) = positions x 0 s.
Proof.
  destruct autojunk; [|right; apply chain_b_no_autojunk].
  unfold difflib.chain_b.
  destruct (filter _ _ !! x) as [l|] eqn:E; [|by left].
  right. apply map_lookup_filter_Some in E as [E _].
  pose proof (index_from_lookup s 0 ∅ x) as H.
  rewrite E, lookup_empty in H. exact H.
Qed.

Lemma kept_run_S self m :
  kept_run self (S m)
  = match difflib.b self !! m with
    | Some x => if kept self x then S (kept_run self m) else 0
    | None => 0
    end.
Proof. reflexivity. Qed.

Arguments kept_run : simpl never.

Section same_text.
Variable self : difflib.SequenceMatcher.
Hypothesis Hab : difflib.a self = difflib.b self.
Hypothesis Hkeys : ∀ x,
  default [] (difflib.b2j self !! x) = []
  ∨ default [] (difflib.b2j self !! x) = positions x 0 (difflib.b self).

Local Abbreviation n := (length (difflib.b self)).
Local Abbreviation D := (kept_run self).

Lemma kept_run_le m : D m ≤ m.
Proof.
  induction m as [|m IH]; [done|]. rewrite kept_run_S.
  destruct (difflib.b self !! m) as [x|]; [|lia].
  destruct (kept self x); lia.
Qed.

Lemma kept_run_succ m x :
  difflib.b self !! m = Some x → kept self x = true → D (S m) = S (D m).
Proof. intros Hx Hk. by rewrite kept_run_S, Hx, Hk. Qed.

Lemma kept_run_zero m x :
  difflib.b self !! m = Some x → kept self x = false → D (S m) = 0.
Proof. intros Hx Hk. by rewrite kept_run_S, Hx, Hk. Qed.

Lemma kept_positions x :
  kept self x = true →
  default [] (difflib.b2j self !! x) = positions x 0 (difflib.b self).
Proof.
  unfold kept. intros Hk. destruct (Hkeys x) as [H|H]; [|done].
  by rewrite H in Hk.
Qed.

Lemma not_kept_nil x :
  kept self x = false → default [] (difflib.b2j self !! x) = [].
Proof. unfold kept. by destruct (default _ _). Qed.

Lemma j2len_get_kept j2len i j :
  (∀ j k, j2len !! j = Some k → k ≤ D i ∧ k ≤ D (S j)) →
  difflib.j2len_get j2len j ≤ D i ∧ difflib.j2len_get j2len j ≤ D j.
Proof.
  intros Hj2. destruct j as [|j']; cbn [difflib.j2len_get]; [lia|].
  destruct (j2len !! j') as [k'|] eqn:E; cbn [default]; [|lia].
  exact (Hj2 _ _ E).
Qed.

(** A row of the scan whose element has kept its entry. *)
Lemma scan_row_same x i j2len :
  difflib.b self !! i = Some x → kept self x = true →
  difflib.j2len_get j2len i = D i →
  (∀ j k, j2len !! j = Some k → k ≤ D i ∧ k ≤ D (S j)) →
  ∀ rest j newj2len best,
    drop j (difflib.b self) = rest →
    (∀ j' k, newj2len !! j' = Some k → k ≤ D (S i) ∧ k ≤ D (S j')) →
    (∀ p, p ≤ i → D p ≤ best.2) →
    (i < j → D (S i) ≤ best.2 ∧ newj2len !! i = Some (D (S i))) →
    diagonal (S i) best →
    rows_scanned self (S i)
      (difflib.scan_row 0 n i j2len (positions x j rest) newj2len best).1
      (difflib.scan_row 0 n i j2len (positions x j rest) newj2len best).2.
Proof.
  intros Hx Hkx Hget Hj2.
  induction rest as [|y rest IH]; intros j nj best Hdrop Hnj Hmax Hpast Hdiag.
  { simpl. apply lookup_lt_Some in Hx as Hi.
    apply (f_equal length) in Hdrop. rewrite length_drop in Hdrop.
    simpl in Hdrop. destruct Hpast as [Hmaxi Hnji]; [lia|].
    split; [simpl; by rewrite Hnji|]. split; [done|]. split; [|done].
    intros p Hp. destruct (decide (p = S i)) as [->|]; [done|].
    apply Hmax. lia. }
  assert (difflib.b self !! j = Some y) as Hy.
  { pose proof (lookup_drop (difflib.b self) j 0) as H.
    rewrite Hdrop, Nat.add_0_r in H. done. }
  assert (drop (S j) (difflib.b self) = rest) as Hdrop'.
  { by rewrite <- Nat.add_1_r, <- drop_drop, Hdrop. }
  simpl. destruct (Ascii.eqb_spec y x) as [->|Hne].
  - apply lookup_lt_Some in Hy as Hj.
    cbn [difflib.scan_row].
    replace (j <? 0) with false by done.
    replace (n <=? j) with false by (symmetry; apply Nat.leb_gt; lia).
    set (k := difflib.j2len_get j2len j + 1).
    assert (k ≤ D (S i)) as Hki.
    { rewrite (kept_run_succ i x Hx Hkx). unfold k.
      destruct (j2len_get_kept j2len i j Hj2). lia. }
    assert (k ≤ D (S j)) as Hkj.
    { rewrite (kept_run_succ j x Hy Hkx). unfold k.
      destruct (j2len_get_kept j2len i j Hj2). lia. }
    apply IH; [done| | | |].
    + intros j' k'. rewrite lookup_insert.
      destruct (decide (j = j')) as [<-|]; [by intros [= <-]|apply Hnj].
    + intros p Hp. specialize (Hmax p Hp).
      destruct (difflib.size best <? k) eqn:E; [|done].
      apply Nat.ltb_lt in E. unfold difflib.size in E. simpl. lia.
    + intros Hij. destruct (decide (j = i)) as [->|Hji].
      * assert (k = D (S i)) as Hk.
        { unfold k. rewrite Hget, (kept_run_succ i x Hx Hkx). lia. }
        rewrite lookup_insert_eq, Hk. split; [|done].
        destruct (difflib.size best <? D (S i)) eqn:E; [done|].
        apply Nat.ltb_ge in E. exact E.
      * destruct Hpast as [Hmaxi Hnji]; [lia|].
        rewrite lookup_insert_ne by done. split; [|done].
        destruct (difflib.size best <? k) eqn:E; [|done].
        apply Nat.ltb_lt in E. unfold difflib.size in E. simpl. lia.
    + destruct (difflib.size best <? k) eqn:E; [|done].
      apply Nat.ltb_lt in E. unfold difflib.size in E.
      destruct (decide (j < i)) as [Hlt|Hge].
      { pose proof (Hmax (S j) ltac:(lia)). lia. }
      destruct (decide (j = i)) as [->|Hji].
      { pose proof (kept_run_le (S i)). split; simpl; lia. }
      destruct Hpast as [Hmaxi _]; lia.
  - apply IH; [done|done|done| |done].
    intros Hij. destruct (decide (j = i)) as [->|Hji].
    + rewrite Hx in Hy. by injection Hy as ->.
    + apply Hpast. lia.
Qed.

Lemma scan_rows_same cnt : ∀ i j2len best,
  i + cnt ≤ n →
  rows_scanned self i j2len best →
  diagonal (i + cnt)
    (difflib.scan_rows self 0 n (seq i cnt) j2len best).
Proof.
  induction cnt as [|cnt IH]; intros i j2len best Hcnt Hinv;
    cbn [seq difflib.scan_rows].
  { rewrite Nat.add_0_r. by destruct Hinv as (_ & _ & _ & ?). }
  destruct (lookup_lt_is_Some_2 (difflib.b self) i) as [x Hx]; [lia|].
  rewrite Hab, Hx. cbn [default].
  destruct Hinv as (Hget & Hj2 & Hmax & Hd1 & Hd2).
  replace (i + S cnt) with (S i + cnt) by lia.
  destruct (kept self x) eqn:Hkx.
  - rewrite (kept_positions x Hkx).
    pose proof (scan_row_same x i j2len Hx Hkx Hget Hj2
                  (difflib.b self) 0 ∅ best) as Hrow.
    destruct (difflib.scan_row 0 n i j2len
                (positions x 0 (difflib.b self)) ∅ best)
      as [newj2len best'].
    apply IH; [lia|]. apply Hrow; try done; [lia|]. split; [done|lia].
  - rewrite (not_kept_nil x Hkx). cbn [difflib.scan_row].
    apply IH; [lia|]. split; [|split; [|split]].
    + simpl. rewrite lookup_empty. simpl. symmetry.
      by eapply kept_run_zero.
    + intros j k. by rewrite lookup_empty.
    + intros p Hp. destruct (decide (p = S i)) as [->|].
      * rewrite (kept_run_zero i x Hx Hkx). lia.
      * apply Hmax. lia.
    + split; [done|lia].
Qed.

Lemma same_diagonal p : p < n → difflib.same self p p = true.
Proof.
  intros Hp. unfold difflib.same, same_at. rewrite Hab.
  destruct (lookup_lt_is_Some_2 (difflib.b self) p Hp) as [x ->].
  apply Ascii.eqb_refl.
Qed.

Lemma extend_left_same room : ∀ p k,
  room ≤ p → p + k ≤ n →
  difflib.extend_left self 0 0 false room (p, p, k)
  = (p - room, p - room, k + room).
Proof.
  induction room as [|room IH]; intros p k Hroom Hin; simpl.
  { by rewrite Nat.sub_0_r, Nat.add_0_r. }
  rewrite junk_at_false, same_diagonal by lia.
  replace (0 <? p) with true by (symmetry; apply Nat.ltb_lt; lia).
  simpl. rewrite IH by lia. f_equal; [f_equal|]; lia.
Qed.

Lemma extend_right_same room : ∀ p k,
  p + k + room ≤ n →
  difflib.extend_right self n n false room (p, p, k) = (p, p, k + room).
Proof.
  induction room as [|room IH]; intros p k Hin; simpl.
  { by rewrite Nat.add_0_r. }
  rewrite junk_at_false, same_diagonal by lia.
  replace (p + k <? n) with true by (symmetry; apply Nat.ltb_lt; lia).
  simpl. rewrite IH by lia. f_equal. lia.
Qed.

Lemma extend_left_junk room best :
  difflib.extend_left self 0 0 true room best = best.
Proof.
  destruct room, best as [[i j] k]; simpl; [done|].
  by rewrite junk_at_false, andb_false_r.
Qed.

Lemma extend_right_junk room best :
  difflib.extend_right self n n true room best = best.
Proof.
  destruct room, best as [[i j] k]; simpl; [done|].
  by rewrite junk_at_false, andb_false_r.
Qed.

(** The longest block of a text and itself is the whole text. *)
Lemma find_longest_match_same :
  difflib.find_longest_match self 0 n 0 n = (0, 0, n).
Proof.
  unfold difflib.find_longest_match. rewrite !Nat.sub_0_r.
  pose proof (scan_rows_same n 0 ∅ (0, 0, 0)) as Hscan.
  destruct (difflib.scan_rows self 0 n (seq 0 n) ∅ (0, 0, 0))
    as [[p q] k].
  destruct Hscan as [Hd1 Hd2]; [done| |].
  { split; [done|]. split; [intros j k'; by rewrite lookup_empty|].
    split; [|done]. intros p' Hp'. by replace p' with 0 by lia. }
  simpl in Hd1, Hd2. subst q. cbn [fst snd].
  rewrite extend_left_same by lia.
  rewrite Nat.sub_diag. unfold difflib.size. cbn [fst snd].
  rewrite extend_right_same by lia.
  rewrite extend_left_junk, extend_right_junk. f_equal. lia.
Qed.

Lemma blocks_loop_done steps blocks :
  difflib.blocks_loop self steps [] blocks = ([], blocks).
Proof. by destruct steps. Qed.

Lemma matched_same : difflib.matched self = n.
Proof.
  rewrite matched_loop. unfold difflib.steps_for.
  replace (length (difflib.a self)) with n by by rewrite Hab.
  rewrite Nat.add_1_r.
  cbn [difflib.blocks_loop]. rewrite find_longest_match_same.
  destruct (n =? 0) eqn:E.
  - apply Nat.eqb_eq in E. rewrite blocks_loop_done. simpl. lia.
  - rewrite Nat.ltb_irrefl. cbn [andb Nat.add].
    rewrite Nat.ltb_irrefl, blocks_loop_done.
    unfold total_size, difflib.size. simpl. lia.
Qed.

Lemma frac_one m : 0 < m → (difflib.frac m m == 1)%Q.
Proof.
  intros Hm. unfold difflib.frac, Qeq. simpl.
  destruct m as [|m]; [lia|].
  rewrite <- Pos.of_nat_succ, Zpos_P_of_succ_nat. lia.
Qed.

Lemma ratio_same : (difflib.ratio self == 1)%Q.
Proof.
  unfold difflib.ratio, difflib._calculate_ratio.
  rewrite matched_same, Hab.
  destruct (_ =? 0) eqn:E; [reflexivity|]. apply Nat.eqb_neq in E.
  replace (2 * n) with (n + n) by lia. apply frac_one. lia.
Qed.
End same_text.

Lemma ratio_init_same autojunk s :
  (difflib.ratio (difflib.init autojunk s s) == 1)%Q.
Proof.
  apply ratio_same; [reflexivity|].
  intros x. apply chain_b_cases.
Qed.

Lemma similarity_ratio_equal g p :
  lower (_normalize_text g) = lower (_normalize_text p) →
  (similarity_ratio (signals g p) == 1)%Q.
Proof. intros Heq. open_signals. rewrite Heq. apply ratio_init_same. Qed.

Lemma pymax_eq_r x y : (x <= y)%Q → (pymax x y == y)%Q.
Proof.
  intros H. unfold pymax. destruct (Qle_bool y x) eqn:E; [|reflexivity].
  apply Qle_bool_iff in E. by apply Qle_antisym.
Qed.

Lemma exact_match_le_similarity g p :
  (exact_match (signals g p) <= similarity (signals g p))%Q.
Proof.
  destruct (decide (lower (_normalize_text g) = lower (_normalize_text p)))
    as [Heq|Hne].
  - eapply Qle_trans; [apply exact_match_range|].
    eapply Qle_trans; [|apply similarity_ge].
    eapply Qle_trans; [|apply similarity_partial_ge].
    rewrite (similarity_ratio_equal g p Heq). apply Qle_refl.
  - eapply Qle_trans; [|apply similarity_range].
    open_signals. by destruct (decide _).
Qed.

(** X24: a text against itself has similarity 1.0 before the bonuses, at
    any length: the popular characters that the library leaves out of its
    index are matched when the block is extended. *)
Theorem similarity_ratio_of_equal_texts :
  ∀ (gold_text pred_text : text),
    lower (_normalize_text gold_text) = lower (_normalize_text pred_text) →
    (similarity_ratio (signals gold_text pred_text) == 1)%Q.
Proof. exact similarity_ratio_equal. Qed.

Lemma similarity_ratio_of_equal_texts_witness :
  (similarity_ratio (signals long_prediction long_prediction) == 1)%Q.
Proof.
  apply (similarity_ratio_of_equal_texts long_prediction long_prediction).
  reflexivity.
Defined.

(** X25: the total is always the similarity after the bonuses: on an exact
    match that similarity is 1.0 already, so that the maximum taken with
    [exact_match] never changes the value; and the bonuses only raise the
    similarity. *)
Theorem total_is_similarity :
  ∀ (gold_text pred_text : text),
    (total_score (signals gold_text pred_text)
     == similarity (signals gold_text pred_text))%Q
    ∧ (exact_match (signals gold_text pred_text)
       <= similarity (signals gold_text pred_text))%Q
    ∧ (similarity_ratio (signals gold_text pred_text)
       <= similarity_partial (signals gold_text pred_text))%Q
    ∧ (similarity_partial (signals gold_text pred_text)
       <= similarity (signals gold_text pred_text))%Q.
Proof.
  intros g p. split; [|split; [|split]].
  - apply (pymax_eq_r (exact_match (signals g p)) (similarity (signals g p))).
    apply exact_match_le_similarity.
  - apply exact_match_le_similarity.
  - apply similarity_partial_ge.
  - apply similarity_ge.
Qed.

(** ** The similarity before the bonuses: a common piece *)

Lemma substring_lookup (w s : text) pre post d x :
  s = pre ++ w ++ post → w !! d = Some x → s !! (length pre + d) = Some x.
Proof.
  intros -> Hd. rewrite lookup_app_r by lia.
  replace (length pre + d - length pre) with d by lia.
  by apply lookup_app_l_Some.
Qed.

Lemma longest_block_common_piece (w s u : text) :
  substring w s → substring w u →
  length w ≤ (classic.longest_block s u).2.
Proof.
  intros (pre1 & post1 & Hs) (pre2 & post2 & Hu).
  destruct (longest_block_first_longest s u) as (_ & _ & _ & Hmax).
  destruct (decide (length w = 0)) as [->|Hw]; [lia|].
  destruct (Hmax (length pre1, length pre2, length w)) as [H|[H _]];
    simpl in *; try lia.
  - unfold inside. simpl. rewrite Hs, Hu, !length_app. lia.
  - intros d Hd. simpl in *.
    destruct (lookup_lt_is_Some_2 w d Hd) as [x Hx]. unfold same_at.
    rewrite (substring_lookup w s pre1 post1 d x Hs Hx).
    rewrite (substring_lookup w u pre2 post2 d x Hu Hx).
    apply Ascii.eqb_refl.
Qed.

Lemma matched_ge_longest s u :
  (classic.longest_block s u).2 ≤ classic.matched s u.
Proof.
  rewrite matched_unfold.
  destruct (classic.longest_block s u) as [[i j] k]. simpl.
  destruct (k =? 0) eqn:E; [apply Nat.eqb_eq in E|]; lia.
Qed.

(** X26: when the lower-cased normalised prediction has fewer than 200
    characters, a piece that the two lower-cased normalised texts have
    in common bounds the similarity before the bonuses from below: it is
    at least twice the length of the piece over the sum of the two
    lengths. *)
Theorem similarity_ratio_common_piece :
  ∀ (gold_text pred_text w : text),
    length (lower (_normalize_text pred_text)) < 200 →
    w ≠ [] →
    substring w (lower (_normalize_text gold_text)) →
    substring w (lower (_normalize_text pred_text)) →
    (inject_Z (Z.of_nat (2 * length w))
     / inject_Z (Z.of_nat
         (length (lower (_normalize_text gold_text))
          + length (lower (_normalize_text pred_text))))
     <= similarity_ratio (signals gold_text pred_text))%Q.
Proof.
  intros g p w Hshort Hw Hg Hp.
  pose proof (longest_block_common_piece w _ _ Hg Hp) as Hlong.
  pose proof (matched_ge_longest (lower (_normalize_text g))
                (lower (_normalize_text p))) as Hm.
  assert (length w ≤ length (lower (_normalize_text g))) as Hlen.
  { destruct Hg as (pre & post & Hg). apply (f_equal length) in Hg.
    rewrite !length_app in Hg. lia. }
  assert (0 < length w) by (destruct w; [done|simpl; lia]).
  rewrite <- frac_div by lia. open_signals.
  unfold difflib.ratio, difflib._calculate_ratio.
  rewrite matched_classic by (intros x; by apply chain_b_short).
  unfold difflib.init. cbn [difflib.a difflib.b].
  destruct (_ =? 0) eqn:E; [apply Nat.eqb_eq in E; lia|].
  apply frac_le. lia.
Qed.

Lemma similarity_ratio_common_piece_witness :
  (10 # 20 <= similarity_ratio
                (signals (txt "In Paris.") (txt "Paris, France")))%Q.
Proof.
  refine (similarity_ratio_common_piece (txt "In Paris.")
            (txt "Paris, France") (txt "paris") _ _ _ _).
  - vm_compute. lia.
  - discriminate.
  - by exists (txt "in "), [].
  - by exists [], (txt " france").
Defined.

(** ** The scenarios of the specification, evaluated *)

Example scenario_same_text :
  ∃ r, __call__ default_metric (VStr (txt "Paris")) (VStr (txt "Paris")) true
       = ([], inr r)
       ∧ total_of r = Some 1%Q.
Proof. eexists. split; reflexivity. Qed.

Example scenario_fields :
  _extract_text default_metric (VDict [(txt "answer", VStr (txt "42"))])
  = inr (txt "42")
  ∧ _extract_text default_metric (VDict [(txt "response", VStr (txt "42"))])
    = inr (txt "42")
  ∧ ∃ r, __call__ default_metric (VDict [(txt "answer", VStr (txt "42"))])
           (VDict [(txt "response", VStr (txt "42"))]) false = ([], inr r)
         ∧ total_of r = Some 1%Q.
Proof. split; [|split]; try reflexivity. eexists. split; reflexivity. Qed.

Example scenario_empty_gold :
  __call__ default_metric (VStr (txt "")) (VStr (txt "anything")) true
  = ([], inr (Detailed zero_scores)).
Proof. reflexivity. Qed.

Example scenario_key_words :
  ∃ r, __call__ default_metric (VStr (txt "cats and dogs are pets"))
         (VStr (txt "dogs cats pets")) false = ([], inr r)
       ∧ total_of r = Some (8 # 10)%Q.
Proof. eexists. split; vm_compute; reflexivity. Qed.

Example scenario_unrelated :
  ∃ r, __call__ default_metric (VStr (txt "hello world"))
         (VStr (txt "goodbye mars")) false = ([], inr r)
       ∧ total_of r = Some (6 # 23)%Q.
Proof. eexists. split; vm_compute; reflexivity. Qed.
